(** * Schema guard of vite-plugin-interface-to-object

    A shallow embedding of the runtime guard ([src/plugins/SchemeGuard.ts])
    and of the declaration parser ([src/plugins/InterfaceSchemaParser.ts]),
    with the properties of the guard/autofill engine stated over it.

    Modelling choices, all read off the source:
    - runtime values are JSON-like trees: [undefined], [null], booleans,
      numbers (integers, the engine only classifies and compares them),
      strings, arrays and plain objects.  Objects are association lists in
      insertion order, so that [target[key] = v] keeps the position of an
      existing key and appends a new one, as JavaScript does.  An array may
      carry named properties next to its elements, because the per-key loop
      writes [target[key]] on whatever object it is given;
    - field keys are assumed not to be found through the prototype chain nor
      to be array indices or [length], so [key in target] is a lookup among
      the object's own named properties;
    - the target graph is a tree: in-place mutation is modelled by returning
      the new state of the mutated object next to the returned value;
    - a schema object is a list of properties in [Object.entries] order plus
      the hidden [_DeclarationTypeKey] tag; named declarations live in an
      environment keyed by the emitted binding name, and a type reference
      holds that name (the emitted accessor resolves it when it is read);
    - [visited] is a [WeakSet] of schema objects.  A declaration object is
      identified by its binding name.  The object of an inline type literal
      is rebuilt by the emitted accessor on every read of [attribute], so a
      lookup never finds one and adding one is unobservable;
    - recursion through declarations is not structural: the engine is
      written with open recursion and closed with a fuel argument. *)

From stdpp Require Import numbers strings gmap fin_maps list.

Open Scope string_scope.
Open Scope Z_scope.
Open Scope list_scope.

Set Warnings "-register-all".

(** ** Runtime values *)

Inductive value : Type :=
| VUndefined
| VNull
| VBool (b : bool)
| VNum (n : Z)
| VStr (s : string)
| VArr (items : list value) (props : list (string * value))
| VObj (props : list (string * value)).

(** Exceptions the engine can raise. *)
Inductive JsError : Type :=
| TypeError
| ReferenceError.

(** Result of running a piece of the engine: a value, an exception, or the
    fuel ran out before the call tree was exhausted. *)
Inductive outcome (A : Type) : Type :=
| Returned (a : A)
| Thrown (e : JsError)
| OutOfFuel.
Arguments Returned {A} a.
Arguments Thrown {A} e.
Arguments OutOfFuel {A}.

#[global] Instance outcome_ret : MRet outcome := fun _ a => Returned a.
#[global] Instance outcome_bind : MBind outcome := fun _ _ f m =>
  match m with
  | Returned a => f a
  | Thrown e => Thrown e
  | OutOfFuel => OutOfFuel
  end.

(** Result of [typeof]. *)
Inductive JsType : Type :=
| TyUndefined
| TyObject
| TyBoolean
| TyNumber
| TyString.

Definition typeof (v : value) : JsType :=
  match v with
  | VUndefined => TyUndefined
  | VNull => TyObject
  | VBool _ => TyBoolean
  | VNum _ => TyNumber
  | VStr _ => TyString
  | VArr _ _ => TyObject
  | VObj _ => TyObject
  end.

Definition isArrayValue (v : value) : bool :=
  match v with
  | VArr _ _ => true
  | _ => false
  end.

Fixpoint lookupProp (k : string) (ps : list (string * value)) : option value :=
  match ps with
  | [] => None
  | (k', v) :: rest => if String.eqb k k' then Some v else lookupProp k rest
  end.

(** [obj[k] = v] on the own properties: an existing key keeps its place. *)
Fixpoint assignProp (k : string) (v : value) (ps : list (string * value))
  : list (string * value) :=
  match ps with
  | [] => [(k, v)]
  | (k', v') :: rest =>
      if String.eqb k k' then (k, v) :: rest else (k', v') :: assignProp k v rest
  end.

Definition ownProps (target : value) : option (list (string * value)) :=
  match target with
  | VObj ps => Some ps
  | VArr _ ps => Some ps
  | _ => None
  end.

(** [key in target]: a [TypeError] when [target] is not an object. *)
Definition hasKey (k : string) (target : value) : outcome bool :=
  match ownProps target with
  | Some ps => Returned (bool_decide (is_Some (lookupProp k ps)))
  | None => Thrown TypeError
  end.

(** [target[key]], read on an object. *)
Definition getField (target : value) (k : string) : value :=
  match ownProps target with
  | Some ps => default VUndefined (lookupProp k ps)
  | None => VUndefined
  end.

(** [target[key] = v] on an object. *)
Definition setField (target : value) (k : string) (v : value) : value :=
  match target with
  | VObj ps => VObj (assignProp k v ps)
  | VArr items ps => VArr items (assignProp k v ps)
  | _ => target
  end.

(** ** Schema descriptors ([const.ts], [InterfaceSchemaParser.ts]) *)

Inductive KeyWord : Type :=
| StringKeyword
| NumberKeyword
| BooleanKeyword
| UndefinedKeyword
| NullKeyword
| AnyKeyword
| UnknownKeyword
| NeverKeyword
| BigKeyword
| SymbolKeyword.

Inductive DeclarationType : Type :=
| InterfaceDeclaration
| TypeLiteralDeclaration
| TypeAliasDeclaration.

(** The value a literal type denotes once the emitted module is loaded. *)
Inductive literal : Type :=
| LitStr (s : string)
| LitNum (n : Z)
| LitBool (b : bool)
| LitNull.

Definition literalValue (l : literal) : value :=
  match l with
  | LitStr s => VStr s
  | LitNum n => VNum n
  | LitBool b => VBool b
  | LitNull => VNull
  end.

Record SchemaPropertyOf (A : Type) : Type := Property {
  key : string;
  attribute : list A;
  isOptional : bool
}.
Arguments Property {A} key attribute isOptional.
Arguments key {A} _.
Arguments attribute {A} _.
Arguments isOptional {A} _.

(** One [AttributeValue] per [valueType]; the payload is the [value] field. *)
Inductive AttributeValue : Type :=
| BaseType (kw : KeyWord) (isArray : bool)
| Alias (lit : literal) (isArray : bool)
| TypeLiteral (fields : list (SchemaPropertyOf AttributeValue)) (isArray : bool)
| TypeReference (name : string) (isArray : bool).

Definition SchemaPropertyType : Type := SchemaPropertyOf AttributeValue.

Definition attrIsArray (a : AttributeValue) : bool :=
  match a with
  | BaseType _ b => b
  | Alias _ b => b
  | TypeLiteral _ b => b
  | TypeReference _ b => b
  end.

(** A schema object as the guard receives it. *)
Record GuarderType : Type := Schema {
  entries : list SchemaPropertyType;
  declarationType : option DeclarationType
}.

Definition inlineSchema (fields : list SchemaPropertyType) : GuarderType :=
  Schema fields None.

Definition isTypeAlias (s : GuarderType) : bool :=
  match declarationType s with
  | Some TypeAliasDeclaration => true
  | _ => false
  end.

(** ** The guard ([SchemeGuard.ts]) *)

Record GuardOut : Type := GuardResult {
  result : value;      (* what the call returns *)
  targetAfter : value; (* the target object after the call *)
  visitedAfter : gset string
}.

Record CheckResult : Type := CheckRes {
  isVerify : bool;
  checked : value (* the [value] field *)
}.

Definition fillBaseType (baseValue : KeyWord) : value :=
  match baseValue with
  | StringKeyword => VStr EmptyString
  | NumberKeyword => VNum 0
  | BooleanKeyword => VBool false
  | UndefinedKeyword => VUndefined
  | NullKeyword => VNull
  | _ => VNull
  end.

Definition fillAliasType (baseValue : literal) : value := literalValue baseValue.

Definition strictEqLiteral (v : value) (l : literal) : bool :=
  match v, l with
  | VStr s, LitStr s' => String.eqb s s'
  | VNum n, LitNum n' => Z.eqb n n'
  | VBool b, LitBool b' => Bool.eqb b b'
  | VNull, LitNull => true
  | _, _ => false
  end.

Definition checkBaseType (paramValue : value) (isArray : bool) (kw : KeyWord)
  : CheckResult :=
  if isArray && isArrayValue paramValue then CheckRes true paramValue
  else
    match kw, typeof paramValue with
    | StringKeyword, TyString => CheckRes true paramValue
    | NumberKeyword, TyNumber => CheckRes true paramValue
    | BooleanKeyword, TyBoolean => CheckRes true paramValue
    | UndefinedKeyword, TyUndefined => CheckRes true paramValue
    | NullKeyword, _ =>
        match paramValue with
        | VNull => CheckRes true paramValue
        | _ => CheckRes false paramValue
        end
    | _, _ => CheckRes false paramValue
    end.

Definition checkAliasType (paramValue : value) (isArray : bool) (lit : literal)
  : CheckResult :=
  if isArray && isArrayValue paramValue then CheckRes true paramValue
  else if strictEqLiteral paramValue lit then CheckRes true paramValue
  else CheckRes false (literalValue lit).

Section Engine.
(** The loaded module: binding name to declaration object. *)
Context (env : gmap string GuarderType).
(** The recursive call. *)
Context (guard : value → GuarderType → bool → gset string → outcome GuardOut).

Definition resolves (a : AttributeValue) : bool :=
  match a with
  | TypeReference name _ => bool_decide (is_Some (env !! name))
  | _ => true
  end.

(** Reading [schemaProperty.attribute] runs the emitted accessor, which
    evaluates every referenced binding. *)
Definition readAttribute (p : SchemaPropertyType)
  : outcome (list AttributeValue) :=
  if forallb resolves (attribute p) then Returned (attribute p)
  else Thrown ReferenceError.

Definition resolve (name : string) : outcome GuarderType :=
  match env !! name with
  | Some s => Returned s
  | None => Thrown ReferenceError
  end.

Definition fillTypeLiteral (fields : list SchemaPropertyType) (isArray : bool)
    (visited : gset string) : outcome (value * gset string) :=
  out ← guard (VObj []) (inlineSchema fields) isArray visited;
  Returned (targetAfter out, visitedAfter out).

Definition fillTypeReference (name : string) (isArray : bool)
    (visited : gset string) : outcome (value * gset string) :=
  schema ← resolve name;
  out ← guard (VObj []) schema isArray visited;
  Returned (result out, visitedAfter out).

Definition autoFillValue (schemaProperty : SchemaPropertyType)
    (visited : gset string) : outcome (value * gset string) :=
  attrs ← readAttribute schemaProperty;
  match last attrs with
  | None => Thrown TypeError
  | Some attribute =>
      if attrIsArray attribute then Returned (VArr [] [], visited)
      else
        match attribute with
        | BaseType kw _ => Returned (fillBaseType kw, visited)
        | Alias lit _ => Returned (fillAliasType lit, visited)
        | TypeLiteral fields isArray => fillTypeLiteral fields isArray visited
        | TypeReference name isArray => fillTypeReference name isArray visited
        end
  end.

(** [paramValue.forEach(item => applySchemaGuard({target: item, ...}))]:
    every item is repaired in place, the returned values are dropped. *)
Fixpoint guardEach (items : list value) (schema : GuarderType)
  : outcome (list value) :=
  match items with
  | [] => Returned []
  | item :: rest =>
      out ← guard item schema false ∅;
      rest' ← guardEach rest schema;
      Returned (targetAfter out :: rest')
  end.

Definition checkSchema (paramValue : value) (isArray : bool)
    (schema : GuarderType) : outcome CheckResult :=
  match isArray, paramValue with
  | true, VArr items ps =>
      items' ← guardEach items schema;
      Returned (CheckRes true (VArr items' ps))
  | _, _ =>
      out ← guard paramValue schema false ∅;
      Returned (CheckRes true (targetAfter out))
  end.

Definition checkTypeLiteral (paramValue : value) (isArray : bool)
    (fields : list SchemaPropertyType) : outcome CheckResult :=
  checkSchema paramValue isArray (inlineSchema fields).

Definition checkTypeReference (paramValue : value) (isArray : bool)
    (name : string) : outcome CheckResult :=
  schema ← resolve name;
  checkSchema paramValue isArray schema.

(** The labelled loop of [verifyAndFillField].  [newParam] is the same
    object as [target] on every path that sets [verifyFlag], so the loop
    state is the current [target] and the flag. *)
Fixpoint verifyWalk (items : list AttributeValue) (target : value)
    (verifyFlag : bool) : outcome (value * bool) :=
  match items with
  | [] => Returned (target, verifyFlag)
  | item :: rest =>
      match item with
      | BaseType kw isArray =>
          let c := checkBaseType target isArray kw in
          if isVerify c then Returned (checked c, true)
          else verifyWalk rest target verifyFlag
      | Alias lit isArray =>
          let c := checkAliasType target isArray lit in
          if isVerify c then Returned (checked c, true)
          else verifyWalk rest target verifyFlag
      | TypeLiteral fields isArray =>
          c ← checkTypeLiteral target isArray fields;
          if isVerify c then verifyWalk rest (checked c) true
          else verifyWalk rest target verifyFlag
      | TypeReference name isArray =>
          c ← checkTypeReference target isArray name;
          if isVerify c then verifyWalk rest (checked c) true
          else verifyWalk rest target verifyFlag
      end
  end.

Definition verifyAndFillField (target : value)
    (propertyScheme : SchemaPropertyType) (visited : gset string)
  : outcome (value * gset string) :=
  attrs ← readAttribute propertyScheme;
  '(newParam, verifyFlag) ← verifyWalk attrs target false;
  if verifyFlag : bool then Returned (newParam, visited)
  else autoFillValue propertyScheme visited.

(** [visited.has(attribute.value)]: a [WeakSet] holds objects only, so the
    payload of a primitive or literal alternative is never in it; neither is
    the object of a type literal, which the accessor has just built. *)
Definition visitedHas (visited : gset string) (a : AttributeValue) : bool :=
  match a with
  | TypeReference name _ => bool_decide (name ∈ visited)
  | _ => false
  end.

(** [visited.add(attribute.value)], run for type literals and type
    references; the object of a type literal is never looked up again. *)
Definition visitedAdd (visited : gset string) (a : AttributeValue)
  : gset string :=
  match a with
  | TypeReference name _ => visited ∪ {[ name ]}
  | _ => visited
  end.

(** The per-key loop of [applySchemaGuard]. *)
Fixpoint guardEntries (props : list SchemaPropertyType) (target : value)
    (visited : gset string) : outcome GuardOut :=
  match props with
  | [] => Returned (GuardResult target target visited)
  | schemaProperty :: rest =>
      present ← hasKey (key schemaProperty) target;
      if present : bool then
        '(v, visited) ← verifyAndFillField
                          (getField target (key schemaProperty))
                          schemaProperty visited;
        guardEntries rest (setField target (key schemaProperty) v) visited
      else
        attrs ← readAttribute schemaProperty;
        match last attrs with
        | None => Thrown TypeError
        | Some attribute =>
            if visitedHas visited attribute then
              let target := setField target (key schemaProperty) (VObj []) in
              Returned (GuardResult target target visited)
            else
              '(v, visited) ← autoFillValue schemaProperty
                                (visitedAdd visited attribute);
              guardEntries rest (setField target (key schemaProperty) v)
                           visited
        end
  end.

Definition applySchemaGuardBody (target : value) (targetSchema : GuarderType)
    (isArray : bool) (visited : gset string) : outcome GuardOut :=
  if isArray then Returned (GuardResult (VArr [] []) target visited)
  else if isTypeAlias targetSchema then
    match entries targetSchema with
    | [] => Thrown TypeError
    | schemaProperty :: _ =>
        '(v, visited) ← autoFillValue schemaProperty visited;
        Returned (GuardResult v target visited)
    end
  else guardEntries (entries targetSchema) target visited.
End Engine.

Fixpoint applySchemaGuard (fuel : nat) (env : gmap string GuarderType)
    (target : value) (targetSchema : GuarderType) (isArray : bool)
    (visited : gset string) : outcome GuardOut :=
  match fuel with
  | O => OutOfFuel
  | S fuel' =>
      applySchemaGuardBody env (applySchemaGuard fuel' env)
                           target targetSchema isArray visited
  end.

(** A top-level call: [isArray] and [visited] take their defaults unless the
    caller passes the array hint. *)
Definition guardCall (fuel : nat) (env : gmap string GuarderType)
    (target : value) (targetSchema : GuarderType) (isArrayHint : bool)
  : outcome value :=
  out ← applySchemaGuard fuel env target targetSchema isArrayHint ∅;
  Returned (result out).

(** ** Example schemas *)

Definition literalUnion (name : string) (branches : list literal) : GuarderType :=
  Schema [Property name (map (λ l, Alias l false) branches) false]
         (Some TypeAliasDeclaration).

(** [type Role = 'admin' | 'user'] *)
Definition RoleSchema : GuarderType :=
  literalUnion "Role" [LitStr "admin"; LitStr "user"].

(** [interface A { b: B }] and [interface B { a: A }] *)
Definition declA : GuarderType :=
  Schema [Property "b" [TypeReference "_B__B" false] false]
         (Some InterfaceDeclaration).
Definition declB : GuarderType :=
  Schema [Property "a" [TypeReference "_A__A" false] false]
         (Some InterfaceDeclaration).
Definition envAB : gmap string GuarderType :=
  <["_A__A" := declA]> (<["_B__B" := declB]> ∅).

(** [interface TreeNode { left: TreeNode; right: TreeNode; label: string }] *)
Definition declTreeNode : GuarderType :=
  Schema [Property "left" [TypeReference "_TreeNode__edoNeerT" false] false;
          Property "right" [TypeReference "_TreeNode__edoNeerT" false] false;
          Property "label" [BaseType StringKeyword false] false]
         (Some InterfaceDeclaration).
Definition envTree : gmap string GuarderType :=
  <["_TreeNode__edoNeerT" := declTreeNode]> ∅.

(** [interface Hobby { id: string }] and
    [interface User { best: Hobby; hobbies: Hobby[] }] *)
Definition declHobby : GuarderType :=
  Schema [Property "id" [BaseType StringKeyword false] false]
         (Some InterfaceDeclaration).
Definition hobbiesField : SchemaPropertyType :=
  Property "hobbies" [TypeReference "_Hobby__ybboH" true] false.
Definition declUser : GuarderType :=
  Schema [Property "best" [TypeReference "_Hobby__ybboH" false] false;
          hobbiesField]
         (Some InterfaceDeclaration).
Definition envUser : gmap string GuarderType :=
  <["_Hobby__ybboH" := declHobby]> (<["_User__resU" := declUser]> ∅).

(** [shape: { a: string } | { b: string }] *)
Definition shapeField : SchemaPropertyType :=
  Property "shape"
    [TypeLiteral [Property "a" [BaseType StringKeyword false] false] false;
     TypeLiteral [Property "b" [BaseType StringKeyword false] false] false]
    false.

(** ** The declaration parser ([InterfaceSchemaParser.ts], [Tool.ts]) *)

Definition formatObjectName (objectName : string) : string :=
  "_" +:+ objectName +:+ "__" +:+ String.rev objectName.

Fixpoint startsWith (searchString text : string) : bool :=
  match searchString, text with
  | EmptyString, _ => true
  | String c s, String c' t => Ascii.eqb c c' && startsWith s t
  | String _ _, EmptyString => false
  end.

(** [text.includes(searchString)] *)
Fixpoint includes (text searchString : string) : bool :=
  startsWith searchString text ||
  match text with
  | EmptyString => false
  | String _ rest => includes rest searchString
  end.

(** The part of the TypeScript syntax tree the parser inspects.  A type
    reference is kept with its source text, which is all the parser reads of
    it; a literal type is kept with the value its text denotes. *)
Inductive MemberOf (T : Type) : Type :=
| PropertySignature (name : string) (questionToken : bool) (type : option T)
| OtherMember.
Arguments PropertySignature {T} name questionToken type.
Arguments OtherMember {T}.

Inductive TypeNode : Type :=
| KeywordTypeNode (kw : KeyWord)
| ArrayTypeNode (elementType : TypeNode)
| LiteralTypeNode (lit : literal)
| UnionTypeNode (types : list TypeNode)
| TypeReferenceNode (text : string)
| TypeLiteralNode (members : list (MemberOf TypeNode))
| IntersectionTypeNode (types : list TypeNode)
| OtherTypeNode (text : string).

Inductive Statement : Type :=
| InterfaceDeclarationNode (name : string) (exported : bool)
    (members : list (MemberOf TypeNode))
| TypeAliasDeclarationNode (name : string) (exported : bool) (type : TypeNode)
| OtherStatement.

(** What [console.warn] is called with. *)
Inductive Warning : Type :=
| EmptyTypeNode
| GenericNotSupported (text : string)
| UnknownType (typeNode : TypeNode).

(** An [AttributeValue] as the parser builds it: [ParseError] marks an
    unsupported type, and the members of a type literal are kept as
    [parsePropertyNode] returned them, [null] included. *)
Inductive ParsedAttribute : Type :=
| ParsedBase (kw : KeyWord) (isArray : bool)
| ParsedAlias (lit : literal) (isArray : bool)
| ParsedLiteral (members : list (option (SchemaPropertyOf ParsedAttribute)))
    (isArray : bool)
| ParsedReference (objectName : string) (isArray : bool)
| ParseError (isArray : bool).

Definition ParsedProperty : Type := SchemaPropertyOf ParsedAttribute.

Record SchemaInterface : Type := Interface {
  objectName : string;
  props : list ParsedProperty;
  isExport : bool;
  _declarationType : DeclarationType
}.

Definition isParseError (a : ParsedAttribute) : bool :=
  match a with
  | ParseError _ => true
  | _ => false
  end.

Definition setIsArray (a : ParsedAttribute) : ParsedAttribute :=
  match a with
  | ParsedBase kw _ => ParsedBase kw true
  | ParsedAlias lit _ => ParsedAlias lit true
  | ParsedLiteral ms _ => ParsedLiteral ms true
  | ParsedReference n _ => ParsedReference n true
  | ParseError _ => ParseError true
  end.

Definition createErrorAttr (message : Warning)
  : ParsedAttribute * list Warning :=
  (ParseError false, [message]).

Definition createBaseAttr (kw : KeyWord) : ParsedAttribute :=
  ParsedBase kw false.

Definition createLiteralAttr (lit : literal) : ParsedAttribute :=
  ParsedAlias lit false.

Definition createTypeRefAttr (text : string) : ParsedAttribute * list Warning :=
  if includes text "<" then createErrorAttr (GenericNotSupported text)
  else (ParsedReference (formatObjectName text) false, []).

Section ParseProperty.
Context (parseTypeNode : option TypeNode → list ParsedAttribute * list Warning).

Definition parsePropertyNode (member : MemberOf TypeNode)
  : option ParsedProperty * list Warning :=
  match member with
  | OtherMember => (None, [])
  | PropertySignature name questionToken type =>
      if String.eqb name EmptyString then (None, [])
      else
        let '(attributes, warnings) := parseTypeNode type in
        let validAttributes := filter (λ a, isParseError a = false) attributes in
        match validAttributes with
        | [] => (None, warnings)
        | _ => (Some (Property name validAttributes questionToken), warnings)
        end
  end.
End ParseProperty.

Fixpoint parseType (typeNode : TypeNode) : list ParsedAttribute * list Warning :=
  let parseTypeNode (t : option TypeNode) :=
    match t with
    | None => let '(a, w) := createErrorAttr EmptyTypeNode in ([a], w)
    | Some t => parseType t
    end in
  match typeNode with
  | KeywordTypeNode kw => ([createBaseAttr kw], [])
  | ArrayTypeNode elementType =>
      let '(elementTypes, w) := parseType elementType in
      (map setIsArray elementTypes, w)
  | LiteralTypeNode lit => ([createLiteralAttr lit], [])
  | UnionTypeNode types =>
      (fix createUnionAttr (ts : list TypeNode) :=
         match ts with
         | [] => ([], [])
         | t :: rest =>
             let '(a, w) := parseType t in
             let '(a', w') := createUnionAttr rest in
             (a ++ a', w ++ w')
         end) types
  | TypeReferenceNode text =>
      let '(a, w) := createTypeRefAttr text in ([a], w)
  | TypeLiteralNode members =>
      let '(ms, w) :=
        (fix createTypeLiteralAttr (ms : list (MemberOf TypeNode)) :=
           match ms with
           | [] => ([], [])
           | m :: rest =>
               let '(p, w) := parsePropertyNode parseTypeNode m in
               let '(ps, w') := createTypeLiteralAttr rest in
               (p :: ps, w ++ w')
           end) members in
      ([ParsedLiteral ms false], w)
  | IntersectionTypeNode _ | OtherTypeNode _ =>
      let '(a, w) := createErrorAttr (UnknownType typeNode) in ([a], w)
  end.

Definition parseTypeNode (typeNode : option TypeNode)
  : list ParsedAttribute * list Warning :=
  match typeNode with
  | None => let '(a, w) := createErrorAttr EmptyTypeNode in ([a], w)
  | Some t => parseType t
  end.

(** [members.forEach(member => { const property = parsePropertyNode(member);
    if (property) properties.push(property) })] *)
Fixpoint parseMembers (members : list (MemberOf TypeNode))
  : list ParsedProperty * list Warning :=
  match members with
  | [] => ([], [])
  | member :: rest =>
      let '(property, w) := parsePropertyNode parseTypeNode member in
      let '(properties, w') := parseMembers rest in
      (match property with
       | Some p => p :: properties
       | None => properties
       end, w ++ w')
  end.

Definition parseTypeAliasNode (type : TypeNode) (key : string)
  : option ParsedProperty * list Warning :=
  let '(attributes, warnings) := parseTypeNode (Some type) in
  let validAttributes := filter (λ a, isParseError a = false) attributes in
  match validAttributes with
  | [] => (None, warnings)
  | _ => (Some (Property key validAttributes false), warnings)
  end.

(** [existing.props.push(...properties)] on the declaration of that name,
    or a new declaration at the end. *)
Fixpoint mergeDeclaration (parsedInterfaces : list SchemaInterface)
    (name : string) (properties : list ParsedProperty) (exported : bool)
    (declarationType : DeclarationType) : list SchemaInterface :=
  match parsedInterfaces with
  | [] => [Interface name properties exported declarationType]
  | item :: rest =>
      if String.eqb (objectName item) name then
        Interface (objectName item) (props item ++ properties)
                  (isExport item) (_declarationType item) :: rest
      else item :: mergeDeclaration rest name properties exported declarationType
  end.

Definition parseInterfaceNode (parsedInterfaces : list SchemaInterface)
    (interfaceName : string) (exported : bool)
    (members : list (MemberOf TypeNode))
  : list SchemaInterface * list Warning :=
  let '(properties, w) := parseMembers members in
  (mergeDeclaration parsedInterfaces (formatObjectName interfaceName)
                    properties exported InterfaceDeclaration, w).

Fixpoint intersectionMembers (types : list TypeNode)
  : list ParsedProperty * list Warning :=
  match types with
  | [] => ([], [])
  | TypeLiteralNode members :: rest =>
      let '(ps, w) := parseMembers members in
      let '(ps', w') := intersectionMembers rest in
      (ps ++ ps', w ++ w')
  | _ :: rest => intersectionMembers rest
  end.

Definition parsedTypeLiteralNode (parsedInterfaces : list SchemaInterface)
    (typeAliasName : string) (exported : bool) (type : TypeNode)
  : list SchemaInterface * list Warning :=
  let '(properties, declarationType, w) :=
    match type with
    | TypeLiteralNode members =>
        let '(ps, w) := parseMembers members in (ps, TypeLiteralDeclaration, w)
    | IntersectionTypeNode types =>
        let '(ps, w) := intersectionMembers types in
        (ps, TypeLiteralDeclaration, w)
    | UnionTypeNode _ | LiteralTypeNode _ =>
        let '(property, w) := parseTypeAliasNode type typeAliasName in
        (match property with
         | Some p => [p]
         | None => []
         end, TypeAliasDeclaration, w)
    | _ => ([], TypeLiteralDeclaration, [])
    end in
  (mergeDeclaration parsedInterfaces (formatObjectName typeAliasName)
                    properties exported declarationType, w).

(** [sourceFileAst.forEachChild(...)] *)
Fixpoint parseNode (statements : list Statement)
    (parsedInterfaces : list SchemaInterface)
  : list SchemaInterface * list Warning :=
  match statements with
  | [] => (parsedInterfaces, [])
  | statement :: rest =>
      let '(parsedInterfaces, w) :=
        match statement with
        | InterfaceDeclarationNode name exported members =>
            parseInterfaceNode parsedInterfaces name exported members
        | TypeAliasDeclarationNode name exported type =>
            parsedTypeLiteralNode parsedInterfaces name exported type
        | OtherStatement => (parsedInterfaces, [])
        end in
      let '(parsedInterfaces, w') := parseNode rest parsedInterfaces in
      (parsedInterfaces, w ++ w')
  end.

(** *** The emitted module ([generateExportCode])

    The generated text is modelled by the bindings it defines once loaded:
    one schema object per declaration, carrying the hidden declaration tag.
    Building the text fails with a [TypeError] on a [null] member of a type
    literal ([p.attribute] of [null]) and on a [ParseError] payload (a symbol
    spliced into a template string). *)

(** An object literal with a repeated key keeps the first position and the
    last value. *)
Fixpoint defineProperty (p : SchemaPropertyType) (acc : list SchemaPropertyType)
  : list SchemaPropertyType :=
  match acc with
  | [] => [p]
  | q :: rest =>
      if String.eqb (key p) (key q) then p :: rest
      else q :: defineProperty p rest
  end.

Definition objectLiteral (ps : list SchemaPropertyType) : list SchemaPropertyType :=
  fold_left (λ acc p, defineProperty p acc) ps [].

Fixpoint valueToString (v : ParsedAttribute) : outcome AttributeValue :=
  match v with
  | ParsedBase kw isArray => Returned (BaseType kw isArray)
  | ParsedAlias lit isArray => Returned (Alias lit isArray)
  | ParsedReference name isArray => Returned (TypeReference name isArray)
  | ParseError _ => Thrown TypeError
  | ParsedLiteral members isArray =>
      fields ←
        (fix propsToString (ms : list (option ParsedProperty)) :=
           match ms with
           | [] => Returned []
           | None :: _ => Thrown TypeError
           | Some p :: rest =>
               attrs ←
                 (fix values (vs : list ParsedAttribute) :=
                    match vs with
                    | [] => Returned []
                    | v :: vs' =>
                        a ← valueToString v;
                        rest' ← values vs';
                        Returned (a :: rest')
                    end) (attribute p);
               rest' ← propsToString rest;
               Returned (Property (key p) attrs (isOptional p) :: rest')
           end) members;
      Returned (TypeLiteral (objectLiteral fields) isArray)
  end.

Fixpoint valuesToString (vs : list ParsedAttribute)
  : outcome (list AttributeValue) :=
  match vs with
  | [] => Returned []
  | v :: vs' =>
      a ← valueToString v;
      rest ← valuesToString vs';
      Returned (a :: rest)
  end.

Fixpoint propsToString (ps : list ParsedProperty)
  : outcome (list SchemaPropertyType) :=
  match ps with
  | [] => Returned []
  | p :: rest =>
      attrs ← valuesToString (attribute p);
      rest' ← propsToString rest;
      Returned (Property (key p) attrs (isOptional p) :: rest')
  end.

Fixpoint generateExportCode (parsedInterfaces : list SchemaInterface)
  : outcome (gmap string GuarderType) :=
  match parsedInterfaces with
  | [] => Returned ∅
  | intf :: rest =>
      body ← propsToString (props intf);
      bindings ← generateExportCode rest;
      Returned (<[objectName intf :=
                   Schema (objectLiteral body) (Some (_declarationType intf))]>
                bindings)
  end.

(** [build()]: parse the statements of the source file, log the warnings,
    emit the module. *)
Definition build (statements : list Statement)
  : outcome (gmap string GuarderType) * list Warning :=
  let '(parsedInterfaces, warnings) := parseNode statements [] in
  (generateExportCode parsedInterfaces, warnings).

#[global] Instance outcome_fmap : FMap outcome := fun _ _ f m =>
  match m with
  | Returned a => Returned (f a)
  | Thrown e => Thrown e
  | OutOfFuel => OutOfFuel
  end.

(** ** Fuel

    [below o1 o2]: [o2] is [o1] unless [o1] ran out of fuel. *)
Definition below {A} (o1 o2 : outcome A) : Prop :=
  o1 = OutOfFuel ∨ o1 = o2.


(** ** Example sources *)

(** [type Role = 'admin' | 'user'] *)
Definition srcRole : list Statement :=
  [TypeAliasDeclarationNode "Role" false
     (UnionTypeNode [LiteralTypeNode (LitStr "admin");
                     LiteralTypeNode (LitStr "user")])].

(** [interface A { b: B }  interface B { a: A }] *)
Definition srcAB : list Statement :=
  [InterfaceDeclarationNode "A" false
     [PropertySignature "b" false (Some (TypeReferenceNode "B"))];
   InterfaceDeclarationNode "B" false
     [PropertySignature "a" false (Some (TypeReferenceNode "A"))]].

(** [interface TreeNode { left: TreeNode; right: TreeNode; label: string }] *)
Definition srcTreeNode : list Statement :=
  [InterfaceDeclarationNode "TreeNode" false
     [PropertySignature "left" false (Some (TypeReferenceNode "TreeNode"));
      PropertySignature "right" false (Some (TypeReferenceNode "TreeNode"));
      PropertySignature "label" false (Some (KeywordTypeNode StringKeyword))]].

(** [interface Cart { items: Promise<string>; total: number }] *)
Definition srcCart : list Statement :=
  [InterfaceDeclarationNode "Cart" false
     [PropertySignature "items" false (Some (TypeReferenceNode "Promise<string>"));
      PropertySignature "total" false (Some (KeywordTypeNode NumberKeyword))]].

Definition declCart : GuarderType :=
  Schema [Property "total" [BaseType NumberKeyword false] false]
         (Some InterfaceDeclaration).

(** ** Vocabulary of the statements *)

(** The default table of the specification, for the alternatives it lists:
    an array alternative of any kind, a primitive, a literal.  Type literals
    and type references are filled recursively and have no entry. *)
Definition specDefault (a : AttributeValue) : option value :=
  if attrIsArray a then Some (VArr [] [])
  else
    match a with
    | BaseType StringKeyword _ => Some (VStr EmptyString)
    | BaseType NumberKeyword _ => Some (VNum 0)
    | BaseType BooleanKeyword _ => Some (VBool false)
    | BaseType UndefinedKeyword _ => Some VUndefined
    | BaseType NullKeyword _ => Some VNull
    | BaseType AnyKeyword _ => Some VNull
    | BaseType UnknownKeyword _ => Some VNull
    | BaseType NeverKeyword _ => Some VNull
    | BaseType BigKeyword _ => Some VNull
    | BaseType SymbolKeyword _ => Some VNull
    | Alias lit _ => Some (literalValue lit)
    | TypeLiteral _ _ => None
    | TypeReference _ _ => None
    end.

(** Primitive and literal alternatives, as opposed to the object kinds. *)
Definition scalarKind (a : AttributeValue) : bool :=
  match a with
  | BaseType _ _ => true
  | Alias _ _ => true
  | TypeLiteral _ _ => false
  | TypeReference _ _ => false
  end.

(** The runtime check of a primitive or literal alternative. *)
Definition scalarCheck (v : value) (a : AttributeValue) : bool :=
  match a with
  | BaseType kw isArray => isVerify (checkBaseType v isArray kw)
  | Alias lit isArray => isVerify (checkAliasType v isArray lit)
  | TypeLiteral _ _ => false
  | TypeReference _ _ => false
  end.

(** A type reference written with type arguments. *)
Definition genericText (name args : string) : string :=
  name +:+ "<" +:+ args +:+ ">".

Definition memberName (m : MemberOf TypeNode) : option string :=
  match m with
  | PropertySignature name _ _ => Some name
  | OtherMember => None
  end.

Definition isGenericMember (m : MemberOf TypeNode) : Prop :=
  ∃ key q name args,
    m = PropertySignature key q (Some (TypeReferenceNode (genericText name args))).

(** [tags: 'none' | string[]] *)
Definition tagsField : SchemaPropertyType :=
  Property "tags" [Alias (LitStr "none") false; BaseType StringKeyword true] false.

(** [status: 'active' | 'inactive' | string] *)
Definition statusField : SchemaPropertyType :=
  Property "status" [Alias (LitStr "active") false;
                     Alias (LitStr "inactive") false;
                     BaseType StringKeyword false] false.

(** [shape: { a: string }] *)
Definition shapeFieldFirst : SchemaPropertyType :=
  Property "shape"
    [TypeLiteral [Property "a" [BaseType StringKeyword false] false] false]
    false.

(** ** Well-formed schemas

    What the emitted module guarantees of the schema objects it defines: the
    keys of an object are distinct, every property has at least one
    alternative and every referenced binding is defined.  A literal-union
    declaration carries its synthetic property, and its last branch is not a
    reference to another literal-union declaration (TypeScript rejects type
    aliases that circularly reference themselves). *)

Fixpoint wfAttr (env : gmap string GuarderType) (a : AttributeValue) : bool :=
  match a with
  | BaseType _ _ => true
  | Alias _ _ => true
  | TypeLiteral fields _ =>
      bool_decide (NoDup (map key fields)) &&
      forallb (λ p, match attribute p with
                    | [] => false
                    | _ => forallb (wfAttr env) (attribute p)
                    end) fields
  | TypeReference name _ => bool_decide (is_Some (env !! name))
  end.

Definition wfProp (env : gmap string GuarderType) (p : SchemaPropertyType) : bool :=
  match attribute p with
  | [] => false
  | _ => forallb (wfAttr env) (attribute p)
  end.

Definition wfProps (env : gmap string GuarderType)
    (fields : list SchemaPropertyType) : bool :=
  bool_decide (NoDup (map key fields)) && forallb (wfProp env) fields.

(** A literal-union declaration whose last branch names another
    literal-union declaration. *)
Definition aliasEndsInAlias (env : gmap string GuarderType) (s : GuarderType)
  : bool :=
  match entries s with
  | p :: _ =>
      match last (attribute p) with
      | Some (TypeReference name false) =>
          match env !! name with
          | Some s' => isTypeAlias s'
          | None => false
          end
      | _ => false
      end
  | [] => false
  end.

Definition wfSchema (env : gmap string GuarderType) (s : GuarderType) : bool :=
  wfProps env (entries s) &&
  (if isTypeAlias s then
     match entries s with
     | [] => false
     | _ => negb (aliasEndsInAlias env s)
     end
   else true).

Definition wfEnv (env : gmap string GuarderType) : Prop :=
  map_Forall (λ _ s, wfSchema env s = true) env.

(** Nesting size of a list of properties. *)
Fixpoint attrSize (a : AttributeValue) : nat :=
  match a with
  | TypeLiteral fields _ =>
      S (list_sum (map (λ p, S (list_sum (map attrSize (attribute p)))) fields))
  | _ => 1
  end.

Definition propSize (p : SchemaPropertyType) : nat :=
  S (list_sum (map attrSize (attribute p))).

Definition propsSize (fields : list SchemaPropertyType) : nat :=
  list_sum (map propSize fields).

(** ** Plain schemas

    Schemas without type references, in which a type literal may only be the
    last alternative of a property; keys are distinct at every level. *)

Fixpoint plainAttr (a : AttributeValue) : bool :=
  match a with
  | BaseType _ _ => true
  | Alias _ _ => true
  | TypeLiteral fields _ =>
      bool_decide (NoDup (map key fields)) &&
      forallb (λ p, (fix alternatives (l : list AttributeValue) : bool :=
                       match l with
                       | [] => true
                       | a :: rest =>
                           match rest with
                           | [] => plainAttr a
                           | _ :: _ => scalarKind a && alternatives rest
                           end
                       end) (attribute p)) fields
  | TypeReference _ _ => false
  end.

Fixpoint plainAlternatives (l : list AttributeValue) : bool :=
  match l with
  | [] => true
  | a :: rest =>
      match rest with
      | [] => plainAttr a
      | _ :: _ => scalarKind a && plainAlternatives rest
      end
  end.

Definition plainProps (fields : list SchemaPropertyType) : bool :=
  bool_decide (NoDup (map key fields)) &&
  forallb (λ p, plainAlternatives (attribute p)) fields.

(** Scenario 1: [{ name: string | 'default'; age: number | 1; tags: string[] }] *)
Definition scenario1 : GuarderType :=
  Schema [Property "name" [BaseType StringKeyword false;
                           Alias (LitStr "default") false] false;
          Property "age" [BaseType NumberKeyword false;
                          Alias (LitNum 1) false] false;
          Property "tags" [BaseType StringKeyword true] false]
         (Some InterfaceDeclaration).

(** [stable env guard p v]: guarding the present value [v] of property [p]
    keeps it. *)
Definition stable (env : gmap string GuarderType)
    (guard : value → GuarderType → bool → gset string → outcome GuardOut)
    (p : SchemaPropertyType) (v : value) : Prop :=
  ∀ visited, verifyAndFillField env guard v p visited = Returned (v, visited).

(** [interface Page { meta: { items: Promise<string> } }] *)
Definition srcPage : list Statement :=
  [InterfaceDeclarationNode "Page" false
     [PropertySignature "meta" false
        (Some (TypeLiteralNode
           [PropertySignature "items" false
              (Some (TypeReferenceNode "Promise<string>"))]))]].

(** [{ p: { q: string } | string }] *)
Definition mixedSchema : GuarderType :=
  inlineSchema
    [Property "p"
       [TypeLiteral [Property "q" [BaseType StringKeyword false] false] false;
        BaseType StringKeyword false] false].

(** ** Further vocabulary *)

(** The last alternative of a property is a type reference: the only case
    in which the short-circuit on [visited] can fire. *)
Definition lastIsReference (p : SchemaPropertyType) : bool :=
  match last (attribute p) with
  | Some (TypeReference _ _) => true
  | _ => false
  end.

(** The keywords [checkBaseType] has no case for. *)
Definition uncheckedKeyword (kw : KeyWord) : bool :=
  match kw with
  | AnyKeyword | UnknownKeyword | NeverKeyword | BigKeyword | SymbolKeyword => true
  | _ => false
  end.

(** [interface Settings { extra: any }] *)
Definition anyField : SchemaPropertyType :=
  Property "extra" [BaseType AnyKeyword false] false.

(** [interface Event { at: Date }], with no declaration of [Date]. *)
Definition atField : SchemaPropertyType :=
  Property "at" [TypeReference "_Date__etaD" false] false.

(** [grownFrom env visited visited']: [visited'] is [visited] with some
    bindings of the module added. *)
Definition grownFrom (env : gmap string GuarderType)
    (visited visited' : gset string) : Prop :=
  (visited ⊆ visited') ∧ (visited' ⊆ visited ∪ dom env).

(** The unions and the member lists as [parseType] walks them. *)
Fixpoint createUnionAttr (types : list TypeNode)
  : list ParsedAttribute * list Warning :=
  match types with
  | [] => ([], [])
  | t :: rest =>
      let '(a, w) := parseType t in
      let '(a', w') := createUnionAttr rest in
      (a ++ a', w ++ w')
  end.

(** [parsedInterfaces.find(item => item.objectName === name)] *)
Fixpoint findInterface (name : string) (parsedInterfaces : list SchemaInterface)
  : option SchemaInterface :=
  match parsedInterfaces with
  | [] => None
  | item :: rest =>
      if String.eqb (objectName item) name then Some item
      else findInterface name rest
  end.

(** The name a statement declares, if it declares one. *)
Definition declaredName (statement : Statement) : option string :=
  match statement with
  | InterfaceDeclarationNode name _ _ => Some name
  | TypeAliasDeclarationNode name _ _ => Some name
  | OtherStatement => None
  end.

(** The property an object holds under a key. *)
Fixpoint findProperty (k : string) (ps : list SchemaPropertyType)
  : option SchemaPropertyType :=
  match ps with
  | [] => None
  | p :: rest => if String.eqb k (key p) then Some p else findProperty k rest
  end.

(** A union type all of whose branches are type references with type
    arguments, given by name and argument text. *)
Definition genericUnion (branches : list (string * string)) : TypeNode :=
  UnionTypeNode
    (map (λ b, TypeReferenceNode (genericText b.1 b.2)) branches).

Definition parsedIsArray (a : ParsedAttribute) : bool :=
  match a with
  | ParsedBase _ b => b
  | ParsedAlias _ b => b
  | ParsedLiteral _ b => b
  | ParsedReference _ b => b
  | ParseError b => b
  end.

(** ** [groupValuesByMappedKey] ([Tool.ts])

    A [Map] with string keys is an association list in insertion order:
    [set] on a key already present keeps its place. *)

Fixpoint mapGet {A} (k : string) (m : list (string * A)) : option A :=
  match m with
  | [] => None
  | (k', v) :: rest => if String.eqb k k' then Some v else mapGet k rest
  end.

Fixpoint mapSet {A} (k : string) (v : A) (m : list (string * A))
  : list (string * A) :=
  match m with
  | [] => [(k, v)]
  | (k', v') :: rest =>
      if String.eqb k k' then (k, v) :: rest else (k', v') :: mapSet k v rest
  end.

Definition groupValuesByMappedKey {V} (valueMap : list (string * V))
    (keyMap : list (string * string)) : list (string * list V) :=
  fold_left
    (λ groupedMap '(key, value),
       match mapGet key keyMap with
       | Some groupKey =>
           let existing := default [] (mapGet groupKey groupedMap) in
           mapSet groupKey (existing ++ [value]) groupedMap
       | None => groupedMap
       end)
    valueMap [].

(** The values of [valueMap], in order, whose key is mapped to [groupKey]. *)
Fixpoint valuesOfGroup {V} (valueMap : list (string * V))
    (keyMap : list (string * string)) (groupKey : string) : list V :=
  match valueMap with
  | [] => []
  | (key, value) :: rest =>
      if bool_decide (mapGet key keyMap = Some groupKey)
      then value :: valuesOfGroup rest keyMap groupKey
      else valuesOfGroup rest keyMap groupKey
  end.

(** [interface A { k: A | A }], under the binding [name]. *)
Definition selfUnion (name k : string) : GuarderType :=
  Schema [Property k [TypeReference name false; TypeReference name false] false]
         (Some InterfaceDeclaration).

(** ** Termination on arbitrary targets *)

(** A computation indexed by its fuel finishes when, from some fuel on, it
    gives one and the same result, a value or an exception. *)
Definition finishes {A} (c : nat → outcome A) : Prop :=
  ∃ fuel o, o ≠ OutOfFuel ∧ ∀ fuel', (fuel ≤ fuel')%nat → c fuel' = o.

(** At most one alternative of the list is a type literal or a type
    reference. *)
Fixpoint atMostOneObject (attrs : list AttributeValue) : bool :=
  match attrs with
  | [] => true
  | a :: rest =>
      if scalarKind a then atMostOneObject rest else forallb scalarKind rest
  end.

Fixpoint singleAttr (a : AttributeValue) : bool :=
  match a with
  | TypeLiteral fields _ =>
      forallb (λ p, atMostOneObject (attribute p)
                    && forallb singleAttr (attribute p)) fields
  | _ => true
  end.

Definition singleProp (p : SchemaPropertyType) : bool :=
  atMostOneObject (attribute p) && forallb singleAttr (attribute p).

Definition singleProps (fields : list SchemaPropertyType) : bool :=
  forallb singleProp fields.

Definition singleEnv (env : gmap string GuarderType) : Prop :=
  map_Forall (λ _ s, singleProps (entries s) = true) env.

(** Number of objects and arrays in a value. *)
Fixpoint vsize (v : value) : nat :=
  match v with
  | VArr items ps =>
      S (list_sum (map vsize items) + list_sum (map (λ kv, vsize kv.2) ps))
  | VObj ps => S (list_sum (map (λ kv, vsize kv.2) ps))
  | _ => 0
  end.

(** ** What the emission of a parsed source depends on *)

(** Does the type give at least one alternative that [parsePropertyNode]
    keeps? *)
Fixpoint hasValidAttribute (t : TypeNode) : bool :=
  match t with
  | KeywordTypeNode _ | LiteralTypeNode _ | TypeLiteralNode _ => true
  | ArrayTypeNode elementType => hasValidAttribute elementType
  | UnionTypeNode types => existsb hasValidAttribute types
  | TypeReferenceNode text => negb (includes text "<")
  | IntersectionTypeNode _ | OtherTypeNode _ => false
  end.

(** Is every member of every inline object type of [t], at any depth, a
    named property signature with a type that gives a kept alternative? *)
Fixpoint membersKept (t : TypeNode) : bool :=
  match t with
  | ArrayTypeNode elementType => membersKept elementType
  | UnionTypeNode types => forallb membersKept types
  | TypeLiteralNode members =>
      forallb (λ m, match m with
                    | PropertySignature name _ (Some type) =>
                        negb (String.eqb name EmptyString)
                        && hasValidAttribute type && membersKept type
                    | _ => false
                    end) members
  | _ => true
  end.

(** A member of a declaration itself may be dropped; only the inline object
    types below a kept one matter. *)
Definition memberEmittable (m : MemberOf TypeNode) : bool :=
  match m with
  | PropertySignature name _ (Some type) =>
      String.eqb name EmptyString || membersKept type
  | _ => true
  end.

Definition statementEmittable (statement : Statement) : bool :=
  match statement with
  | InterfaceDeclarationNode _ _ members => forallb memberEmittable members
  | TypeAliasDeclarationNode _ _ (TypeLiteralNode members) =>
      forallb memberEmittable members
  | TypeAliasDeclarationNode _ _ (IntersectionTypeNode types) =>
      forallb (λ t, match t with
                    | TypeLiteralNode members => forallb memberEmittable members
                    | _ => true
                    end) types
  | TypeAliasDeclarationNode _ _ (UnionTypeNode types) =>
      forallb membersKept types
  | _ => true
  end.

(** How a computation ended, its value forgotten. *)
Definition status {A} (o : outcome A) : outcome unit := _ ← o; Returned ().

Definition verdict (b : bool) : outcome unit :=
  if b then Returned () else Thrown TypeError.

Definition returned {A} (o : outcome A) : bool :=
  match o with
  | Returned _ => true
  | _ => false
  end.

(** The members of an inline object type, as [propsToString] maps over
    them. *)
Fixpoint membersToString (ms : list (option ParsedProperty))
  : outcome (list SchemaPropertyType) :=
  match ms with
  | [] => Returned []
  | None :: _ => Thrown TypeError
  | Some p :: rest =>
      attrs ← valuesToString (attribute p);
      rest' ← membersToString rest;
      Returned (Property (key p) attrs (isOptional p) :: rest')
  end.

(** [P] on the type of a member, when it has one. *)
Definition onMemberType (P : TypeNode → Prop) (m : MemberOf TypeNode) : Prop :=
  match m with
  | PropertySignature _ _ (Some type) => P type
  | _ => True
  end.

Section TypeNodeInduction.
Context (P : TypeNode → Prop).
Context (Hkeyword : ∀ kw, P (KeywordTypeNode kw)).
Context (Harray : ∀ elementType, P elementType → P (ArrayTypeNode elementType)).
Context (Hliteral : ∀ lit, P (LiteralTypeNode lit)).
Context (Hunion : ∀ types, Forall P types → P (UnionTypeNode types)).
Context (Hreference : ∀ text, P (TypeReferenceNode text)).
Context (Hmembers : ∀ members,
  Forall (onMemberType P) members → P (TypeLiteralNode members)).
Context (Hintersection : ∀ types, P (IntersectionTypeNode types)).
Context (Hother : ∀ text, P (OtherTypeNode text)).

Fixpoint TypeNode_nested_ind (t : TypeNode) : P t :=
  match t with
  | KeywordTypeNode kw => Hkeyword kw
  | ArrayTypeNode elementType =>
      Harray elementType (TypeNode_nested_ind elementType)
  | LiteralTypeNode lit => Hliteral lit
  | UnionTypeNode types =>
      Hunion types
        ((fix each (ts : list TypeNode) : Forall P ts :=
            match ts with
            | [] => @List.Forall_nil _ P
            | t :: rest =>
                @List.Forall_cons _ P t rest (TypeNode_nested_ind t) (each rest)
            end) types)
  | TypeReferenceNode text => Hreference text
  | TypeLiteralNode members =>
      Hmembers members
        ((fix each (ms : list (MemberOf TypeNode))
            : Forall (onMemberType P) ms :=
            match ms with
            | [] => @List.Forall_nil _ (onMemberType P)
            | m :: rest =>
                @List.Forall_cons _ (onMemberType P) m rest
                  (match m return onMemberType P m with
                   | PropertySignature _ _ (Some type) => TypeNode_nested_ind type
                   | _ => I
                   end)
                  (each rest)
            end) members)
  | IntersectionTypeNode types => Hintersection types
  | OtherTypeNode text => Hother text
  end.
End TypeNodeInduction.

(** Is the body of a declaration emitted?  [tidy]: its emission returns or
    throws a [TypeError], nothing else. *)
Definition emits (intf : SchemaInterface) : bool :=
  returned (propsToString (props intf)).

Definition tidy (intf : SchemaInterface) : Prop :=
  ∃ b, status (propsToString (props intf)) = verdict b.

(** * Properties *)

(** ** Fuel *)

Lemma below_refl {A} (o : outcome A) : below o o.
Proof. by right. Qed.

Lemma below_bind {A B} (m1 m2 : outcome A) (f1 f2 : A → outcome B) :
  below m1 m2 → (∀ a, below (f1 a) (f2 a)) → below (m1 ≫= f1) (m2 ≫= f2).
Proof.
  intros [-> | ->] Hf; [by left|].
  destruct m2 as [a| |]; simpl; [apply Hf | by right | by left].
Qed.

Lemma below_returned {A} (o1 o2 : outcome A) a :
  below o1 o2 → o1 = Returned a → o2 = Returned a.
Proof. intros [-> | ->]; congruence. Qed.

#[local] Hint Resolve below_refl : core.

Section EngineMono.
Context (env : gmap string GuarderType).
Context (g1 g2 : value → GuarderType → bool → gset string → outcome GuardOut).
Hypothesis g_below : ∀ t s a v, below (g1 t s a v) (g2 t s a v).

Lemma autoFillValue_below p visited :
  below (autoFillValue env g1 p visited) (autoFillValue env g2 p visited).
Proof.
  unfold autoFillValue. apply below_bind; [done|]. intros attrs.
  destruct (last attrs) as [a|]; [|done].
  destruct (attrIsArray a); [done|].
  destruct a; try done.
  - unfold fillTypeLiteral. apply below_bind; [apply g_below | done].
  - unfold fillTypeReference. apply below_bind; [done|]. intros s.
    apply below_bind; [apply g_below | done].
Qed.

Lemma guardEach_below items schema :
  below (guardEach g1 items schema) (guardEach g2 items schema).
Proof.
  induction items as [|item rest IH]; simpl; [done|].
  apply below_bind; [apply g_below|]. intros out.
  apply below_bind; [apply IH | done].
Qed.

Lemma checkSchema_below v isArray schema :
  below (checkSchema g1 v isArray schema) (checkSchema g2 v isArray schema).
Proof.
  unfold checkSchema.
  destruct isArray, v; try (apply below_bind; [apply g_below | done]).
  apply below_bind; [apply guardEach_below | done].
Qed.

Lemma verifyWalk_below items target flag :
  below (verifyWalk env g1 items target flag)
        (verifyWalk env g2 items target flag).
Proof.
  revert target flag.
  induction items as [|item rest IH]; intros target flag; simpl; [done|].
  destruct item.
  - destruct (isVerify _); [done | apply IH].
  - destruct (isVerify _); [done | apply IH].
  - apply below_bind; [apply checkSchema_below|]. intros c.
    destruct (isVerify c); apply IH.
  - apply below_bind.
    + unfold checkTypeReference. apply below_bind; [done|]. intros s.
      apply checkSchema_below.
    + intros c. destruct (isVerify c); apply IH.
Qed.

Lemma verifyAndFillField_below target p visited :
  below (verifyAndFillField env g1 target p visited)
        (verifyAndFillField env g2 target p visited).
Proof.
  unfold verifyAndFillField. apply below_bind; [done|]. intros attrs.
  apply below_bind; [apply verifyWalk_below|]. intros [v flag].
  destruct flag; [done | apply autoFillValue_below].
Qed.

Lemma guardEntries_below ps target visited :
  below (guardEntries env g1 ps target visited)
        (guardEntries env g2 ps target visited).
Proof.
  revert target visited.
  induction ps as [|p rest IH]; intros target visited; simpl; [done|].
  apply below_bind; [done|]. intros present. destruct present.
  - apply below_bind; [apply verifyAndFillField_below|]. intros [v vis].
    apply IH.
  - apply below_bind; [done|]. intros attrs.
    destruct (last attrs) as [a|]; [|done].
    destruct (visitedHas visited a); [done|].
    apply below_bind; [apply autoFillValue_below|]. intros [v vis].
    apply IH.
Qed.

Lemma applySchemaGuardBody_below target schema isArray visited :
  below (applySchemaGuardBody env g1 target schema isArray visited)
        (applySchemaGuardBody env g2 target schema isArray visited).
Proof.
  unfold applySchemaGuardBody.
  destruct isArray; [done|].
  destruct (isTypeAlias schema); [|apply guardEntries_below].
  destruct (entries schema) as [|p ?]; [done|].
  apply below_bind; [apply autoFillValue_below|]. by intros [v vis].
Qed.
End EngineMono.

Lemma applySchemaGuard_step fuel env target schema isArray visited :
  below (applySchemaGuard fuel env target schema isArray visited)
        (applySchemaGuard (S fuel) env target schema isArray visited).
Proof.
  revert target schema isArray visited.
  induction fuel as [|fuel IH]; intros; [by left|].
  change (applySchemaGuard (S (S fuel)) env) with
    (applySchemaGuardBody env (applySchemaGuard (S fuel) env)).
  change (applySchemaGuard (S fuel) env) with
    (applySchemaGuardBody env (applySchemaGuard fuel env)) at 1.
  apply applySchemaGuardBody_below. apply IH.
Qed.

Lemma applySchemaGuard_fuel_le fuel fuel' env target schema isArray visited :
  (fuel ≤ fuel')%nat →
  below (applySchemaGuard fuel env target schema isArray visited)
        (applySchemaGuard fuel' env target schema isArray visited).
Proof.
  induction 1 as [|fuel' _ IH]; [done|].
  destruct IH as [-> | ->]; [by left | apply applySchemaGuard_step].
Qed.

(** More fuel never changes a result that was reached. *)
Lemma applySchemaGuard_more_fuel fuel fuel' env target schema isArray visited out :
  (fuel ≤ fuel')%nat →
  applySchemaGuard fuel env target schema isArray visited = Returned out →
  applySchemaGuard fuel' env target schema isArray visited = Returned out.
Proof. intros Hle. apply below_returned. by apply applySchemaGuard_fuel_le. Qed.

Lemma guardCall_more_fuel fuel fuel' env target schema hint v :
  (fuel ≤ fuel')%nat →
  guardCall fuel env target schema hint = Returned v →
  guardCall fuel' env target schema hint = Returned v.
Proof.
  unfold guardCall. intros Hle.
  destruct (applySchemaGuard fuel env target schema hint ∅) as [out| |] eqn:E;
    [|done..].
  by rewrite (applySchemaGuard_more_fuel _ _ _ _ _ _ _ _ Hle E).
Qed.

Lemma applySchemaGuard_S fuel env :
  applySchemaGuard (S fuel) env
  = applySchemaGuardBody env (applySchemaGuard fuel env).
Proof. reflexivity. Qed.

(** ** The examples are what the parser emits *)

Lemma build_srcRole : build srcRole = (Returned {[ "_Role__eloR" := RoleSchema ]}, []).
Proof. vm_compute. reflexivity. Qed.

Lemma build_srcAB : build srcAB = (Returned envAB, []).
Proof. vm_compute. reflexivity. Qed.

Lemma build_srcTreeNode : build srcTreeNode = (Returned envTree, []).
Proof. vm_compute. reflexivity. Qed.

(** ** Array hint *)

(** C10: with the array hint set the guard returns an empty array at once,
    for every target and every schema; the target is left as it was and the
    schema is not consulted. *)
Theorem isArray_hint_returns_empty_array fuel env target targetSchema visited :
  applySchemaGuard (S fuel) env target targetSchema true visited
    = Returned (GuardResult (VArr [] []) target visited)
  ∧ guardCall (S fuel) env target targetSchema true = Returned (VArr [] []).
Proof. split; reflexivity. Qed.

(** ** Literal-union declarations *)

Lemma autoFillValue_literal_last env guard name branches l opt visited :
  autoFillValue env guard
    (Property name (map (λ l, Alias l false) (branches ++ [l])) opt) visited
  = Returned (literalValue l, visited).
Proof.
  unfold autoFillValue, readAttribute. simpl attribute.
  replace (forallb (resolves env) (map (λ l0, Alias l0 false) (branches ++ [l])))
    with true.
  2:{ symmetry. apply forallb_forall. intros a Ha.
      apply in_map_iff in Ha as (l0 & <- & _). done. }
  cbn [mbind outcome_bind]. rewrite map_app. cbn [map]. rewrite last_snoc.
  reflexivity.
Qed.

(** C7: a literal-union declaration is not walked key by key: the guard
    returns the default of the last branch of its synthetic field, a scalar,
    and leaves the target alone; for [Role = 'admin' | 'user'], as the
    parser emits it, and an [undefined] target that is ['user']. *)
Theorem literal_union_returns_last_branch fuel env target name branches l visited :
  applySchemaGuard (S fuel) env target (literalUnion name (branches ++ [l]))
                   false visited
    = Returned (GuardResult (literalValue l) target visited)
  ∧ ownProps (literalValue l) = None
  ∧ build srcRole = (Returned {[ "_Role__eloR" := RoleSchema ]}, [])
  ∧ guardCall 1 ∅ VUndefined RoleSchema false = Returned (VStr "user").
Proof.
  split; [|split; [|split]].
  - rewrite applySchemaGuard_S. unfold applySchemaGuardBody.
    cbn [isTypeAlias literalUnion declarationType entries].
    by rewrite autoFillValue_literal_last.
  - by destruct l.
  - apply build_srcRole.
  - reflexivity.
Qed.

Lemma typeAlias_result_any_target fuel env props target target' visited :
  result <$> applySchemaGuard fuel env target
               (Schema props (Some TypeAliasDeclaration)) false visited
  = result <$> applySchemaGuard fuel env target'
                 (Schema props (Some TypeAliasDeclaration)) false visited.
Proof.
  destruct fuel as [|fuel]; [done|]. rewrite !applySchemaGuard_S.
  unfold applySchemaGuardBody. cbn [isTypeAlias declarationType entries].
  destruct props as [|p ?]; [done|].
  by destruct (autoFillValue _ _ p visited) as [[v vis]| |].
Qed.

(** C9: on a literal-union declaration the returned value does not depend on
    the target: it is the default of the last branch even when the target is
    one of the branches, so [guard('admin', Role)] is ['user']. *)
Theorem literal_union_ignores_target fuel env props target target' visited :
  (result <$> applySchemaGuard fuel env target
                (Schema props (Some TypeAliasDeclaration)) false visited
   = result <$> applySchemaGuard fuel env target'
                  (Schema props (Some TypeAliasDeclaration)) false visited)
  ∧ (∀ name branches l,
       guardCall (S fuel) env target (literalUnion name (branches ++ [l])) false
       = Returned (literalValue l))
  ∧ guardCall 1 ∅ (VStr "admin") RoleSchema false = Returned (VStr "user").
Proof.
  split; [|split].
  - apply typeAlias_result_any_target.
  - intros name branches l. unfold guardCall. simpl.
    unfold applySchemaGuardBody. simpl.
    by rewrite autoFillValue_literal_last.
  - reflexivity.
Qed.

(** ** Wrong runtime shape under an object-kind alternative *)

(** C1: the guard does throw on a shape mismatch.  A present value that is
    not an object, under a field whose alternative is a type literal with at
    least one property, reaches [key in target] and raises a [TypeError]. *)
Theorem scalar_under_type_literal_throws fuel env k v ps f fs opt visited :
  ownProps v = None →
  applySchemaGuard (S (S fuel)) env (VObj ((k, v) :: ps))
    (inlineSchema [Property k [TypeLiteral (f :: fs) false] opt]) false visited
  = Thrown TypeError.
Proof.
  intros Hv.
  assert (applySchemaGuard (S fuel) env v (inlineSchema (f :: fs)) false ∅
          = Thrown TypeError) as Hinner.
  { rewrite applySchemaGuard_S. cbn -[applySchemaGuard].
    unfold hasKey. by rewrite Hv. }
  rewrite applySchemaGuard_S. cbn -[applySchemaGuard].
  rewrite String.eqb_refl. cbn -[applySchemaGuard].
  by rewrite Hinner.
Qed.

Lemma scalar_under_type_literal_throws_witness :
  ownProps (VNum 5) = None
  ∧ guardCall 2 ∅ (VObj [("profile", VNum 5)])
      (inlineSchema [Property "profile"
         [TypeLiteral [Property "bio" [BaseType StringKeyword false] false] false]
         false]) false
    = Thrown TypeError.
Proof.
  split; [reflexivity|]. unfold guardCall.
  rewrite (scalar_under_type_literal_throws 0 ∅ "profile" (VNum 5) []); done.
Defined.

(** ** The short-circuit on a visited declaration *)

(** C3: on [TreeNode { left: TreeNode; right: TreeNode; label: string }] the
    loop stops at [right], whose declaration was marked while [left] was
    filled, and returns: [label] has one alternative and is not on the
    result. *)
Theorem early_return_skips_later_fields fuel :
  guardCall (3 + fuel) envTree (VObj []) declTreeNode false
    = Returned (VObj [("left", VObj [("left", VObj [])]); ("right", VObj [])])
  ∧ hasKey "label"
      (VObj [("left", VObj [("left", VObj [])]); ("right", VObj [])])
    = Returned false
  ∧ (attribute <$> last (entries declTreeNode))
    = Some [BaseType StringKeyword false].
Proof.
  split; [|split]; [|reflexivity..].
  apply (guardCall_more_fuel 3); [lia|]. vm_compute. reflexivity.
Qed.

(** ** Own properties *)

Lemma lookupProp_assignProp_eq k v ps :
  lookupProp k (assignProp k v ps) = Some v.
Proof.
  induction ps as [|[k' v'] ps IH]; simpl.
  - by rewrite String.eqb_refl.
  - destruct (String.eqb k k') eqn:E; simpl; [by rewrite String.eqb_refl|].
    by rewrite E.
Qed.

Lemma lookupProp_assignProp_ne k k' v ps :
  k ≠ k' → lookupProp k (assignProp k' v ps) = lookupProp k ps.
Proof.
  intros Hne. induction ps as [|[k'' v''] ps IH]; simpl.
  - by apply String.eqb_neq in Hne as ->.
  - destruct (String.eqb k' k'') eqn:E; simpl.
    + apply String.eqb_eq in E as <-.
      by apply String.eqb_neq in Hne as ->.
    + by rewrite IH.
Qed.

Lemma assignProp_same k v ps :
  lookupProp k ps = Some v → assignProp k v ps = ps.
Proof.
  induction ps as [|[k' v'] ps IH]; simpl; [done|].
  destruct (String.eqb k k') eqn:E.
  - apply String.eqb_eq in E as ->. by intros [= ->].
  - intros H. by rewrite IH.
Qed.

Lemma hasKey_true_inv k target :
  hasKey k target = Returned true →
  ∃ ps v, ownProps target = Some ps ∧ lookupProp k ps = Some v.
Proof.
  unfold hasKey. destruct (ownProps target) as [ps|]; [|done].
  intros [= H]. apply bool_decide_eq_true in H as [v Hv]. eauto.
Qed.

(** Writing back the value a key already holds changes nothing. *)
Lemma setField_getField k target :
  hasKey k target = Returned true → setField target k (getField target k) = target.
Proof.
  intros (ps & v & Hps & Hv)%hasKey_true_inv.
  unfold getField. rewrite Hps, Hv. simpl.
  destruct target; simplify_eq/=; by rewrite assignProp_same.
Qed.

Lemma hasKey_setField_eq k v target b :
  hasKey k target = Returned b → hasKey k (setField target k v) = Returned true.
Proof.
  unfold hasKey. destruct target; simpl; try done; intros _;
    by rewrite lookupProp_assignProp_eq, bool_decide_eq_true_2.
Qed.

Lemma hasKey_setField_ne k k' v target :
  k ≠ k' → hasKey k (setField target k' v) = hasKey k target.
Proof.
  intros Hne. unfold hasKey.
  destruct target; simpl; try done; by rewrite lookupProp_assignProp_ne.
Qed.

Lemma getField_setField_eq k v target b :
  hasKey k target = Returned b → getField (setField target k v) k = v.
Proof.
  unfold hasKey, getField. destruct target; simpl; try done; intros _;
    by rewrite lookupProp_assignProp_eq.
Qed.

Lemma getField_setField_ne k k' v target :
  k ≠ k' → getField (setField target k' v) k = getField target k.
Proof.
  intros Hne. unfold getField.
  destruct target; simpl; try done; by rewrite lookupProp_assignProp_ne.
Qed.

(** ** Default generation *)

Lemma autoFillValue_specDefault env guard p a d visited :
  readAttribute env p = Returned (attribute p) →
  last (attribute p) = Some a →
  specDefault a = Some d →
  autoFillValue env guard p visited = Returned (d, visited).
Proof.
  intros Hread Hlast Hd. unfold autoFillValue. rewrite Hread.
  cbn [mbind outcome_bind]. rewrite Hlast.
  unfold specDefault in Hd. destruct (attrIsArray a); [by simplify_eq|].
  destruct a as [kw ?|lit ?| |]; try done.
  - destruct kw; by simplify_eq.
  - by simplify_eq.
Qed.




(** ** The walk over the alternatives of a present value *)

Lemma checkBaseType_checked v isArray kw :
  checked (checkBaseType v isArray kw) = v.
Proof.
  unfold checkBaseType. destruct (isArray && isArrayValue v); [done|].
  destruct kw, v; done.
Qed.

Lemma checkAliasType_checked v isArray lit :
  isVerify (checkAliasType v isArray lit) = true →
  checked (checkAliasType v isArray lit) = v.
Proof.
  unfold checkAliasType. destruct (isArray && isArrayValue v); [done|].
  by destruct (strictEqLiteral v lit).
Qed.

Lemma verifyWalk_scalar_pass env guard a rest v flag :
  scalarKind a = true → scalarCheck v a = true →
  verifyWalk env guard (a :: rest) v flag = Returned (v, true).
Proof.
  destruct a as [kw arr|lit arr| |]; try done; simpl; intros _ Hv; rewrite Hv.
  - by rewrite checkBaseType_checked.
  - by rewrite checkAliasType_checked.
Qed.

Lemma verifyWalk_scalar_fail env guard a rest v flag :
  scalarKind a = true → scalarCheck v a = false →
  verifyWalk env guard (a :: rest) v flag = verifyWalk env guard rest v flag.
Proof. destruct a; try done; simpl; by intros _ ->. Qed.

Lemma verifyWalk_skip_failing env guard before rest v flag :
  Forall (λ b, scalarKind b = true ∧ scalarCheck v b = false) before →
  verifyWalk env guard (before ++ rest) v flag = verifyWalk env guard rest v flag.
Proof.
  induction 1 as [|b before [Hk Hc] _ IH]; [done|].
  rewrite <-app_comm_cons, verifyWalk_scalar_fail by done. apply IH.
Qed.




(** ** Unsupported type references in the parser *)

Lemma includes_cons c text searchString :
  includes (String c text) searchString
  = startsWith searchString (String c text) || includes text searchString.
Proof. reflexivity. Qed.

Lemma includes_app text rest searchString :
  includes rest searchString = true →
  includes (text +:+ rest) searchString = true.
Proof.
  intros H. induction text as [|c text IH]; [done|].
  change (String c text +:+ rest) with (String c (text +:+ rest)).
  rewrite includes_cons, IH. apply orb_true_r.
Qed.

Lemma includes_generic name args : includes (genericText name args) "<" = true.
Proof. unfold genericText. by apply includes_app. Qed.

Lemma createTypeRefAttr_generic name args :
  createTypeRefAttr (genericText name args)
  = (ParseError false, [GenericNotSupported (genericText name args)]).
Proof. unfold createTypeRefAttr. by rewrite includes_generic. Qed.

Lemma parsePropertyNode_generic m :
  isGenericMember m → (parsePropertyNode parseTypeNode m).1 = None.
Proof.
  intros (k & q & name & args & ->). unfold parsePropertyNode.
  destruct (String.eqb k EmptyString); [done|].
  cbn [parseTypeNode parseType]. by rewrite createTypeRefAttr_generic.
Qed.

Lemma parsePropertyNode_Some member p w :
  parsePropertyNode parseTypeNode member = (Some p, w) →
  memberName member = Some (key p)
  ∧ attribute p ≠ []
  ∧ Forall (λ a, isParseError a = false) (attribute p).
Proof.
  destruct member as [name q type|]; [|done]. unfold parsePropertyNode.
  destruct (String.eqb name EmptyString); [done|].
  destruct (parseTypeNode type) as [attributes warnings].
  destruct (filter _ attributes) as [|a valid] eqn:E; [done|].
  intros [= <- _]. cbn [key attribute memberName]. split; [done|split; [done|]].
  rewrite <-E. apply Forall_forall. intros x Hx.
  by apply list_elem_of_filter in Hx as [? _].
Qed.

Lemma parseMembers_key members p :
  p ∈ (parseMembers members).1 →
  ∃ m w, m ∈ members ∧ parsePropertyNode parseTypeNode m = (Some p, w).
Proof.
  induction members as [|m members IH]; cbn [parseMembers].
  - by intros ?%elem_of_nil.
  - destruct (parsePropertyNode parseTypeNode m) as [property w] eqn:E.
    destruct (parseMembers members) as [properties w'].
    cbn [fst] in *. intros Hp.
    assert (property = Some p ∨ p ∈ properties) as [-> | Hin].
    { destruct property; [apply elem_of_cons in Hp as [-> | ?]|]; eauto. }
    + exists m, w. split; [left | done].
    + destruct (IH Hin) as (m' & w'' & ? & ?). exists m', w''.
      split; [by right | done].
Qed.

Lemma parseMembers_generic_omitted members k :
  (∀ m, m ∈ members → memberName m = Some k → isGenericMember m) →
  k ∉ map key (parseMembers members).1.
Proof.
  intros Hgen (p & -> & Hp)%list_elem_of_fmap.
  apply parseMembers_key in Hp as (m & w & Hm & Hparse).
  pose proof (parsePropertyNode_Some _ _ _ Hparse) as (Hname & _).
  pose proof (parsePropertyNode_generic m (Hgen m Hm Hname)) as Hnone.
  by rewrite Hparse in Hnone.
Qed.

(** The per-key loop writes the keys of the schema and no other. *)
Lemma guardEntries_other_key env guard props k target visited out :
  k ∉ map key props →
  guardEntries env guard props target visited = Returned out →
  hasKey k (result out) = hasKey k target.
Proof.
  revert target visited.
  induction props as [|p rest IH]; intros target visited Hk; cbn [guardEntries].
  - by intros [= <-].
  - apply not_elem_of_cons in Hk as [Hne Hk].
    destruct (hasKey (key p) target) as [[]| |]; cbn [mbind outcome_bind];
      [| |done..].
    + destruct (verifyAndFillField _ _ _ _ _) as [[v vis]| |];
        cbn [mbind outcome_bind]; [|done..].
      intros H. by rewrite (IH _ _ Hk H), hasKey_setField_ne.
    + destruct (readAttribute env p) as [attrs| |]; cbn [mbind outcome_bind];
        [|done..].
      destruct (last attrs) as [a|]; [|done].
      destruct (visitedHas visited a).
      * intros [= <-]. cbn [result]. by rewrite hasKey_setField_ne.
      * destruct (autoFillValue _ _ _ _) as [[v vis]| |];
          cbn [mbind outcome_bind]; [|done..].
        intros H. by rewrite (IH _ _ Hk H), hasKey_setField_ne.
Qed.

Lemma applySchemaGuard_other_key fuel env schema k target visited out :
  isTypeAlias schema = false →
  k ∉ map key (entries schema) →
  applySchemaGuard fuel env target schema false visited = Returned out →
  hasKey k (result out) = hasKey k target.
Proof.
  intros Halias Hk. destruct fuel as [|fuel]; [done|].
  rewrite applySchemaGuard_S. unfold applySchemaGuardBody. rewrite Halias.
  by apply guardEntries_other_key.
Qed.




(** Inside a type literal the members are kept as [parsePropertyNode]
    returned them: a dropped member stays in the list as [null], and
    emitting the module fails on it. *)
Lemma build_srcPage :
  (parseNode srcPage []).1
  = [Interface "_Page__egaP"
       [Property "meta" [ParsedLiteral [None] false] false]
       false InterfaceDeclaration]
  ∧ build srcPage = (Thrown TypeError, [GenericNotSupported "Promise<string>"]).
Proof. split; vm_compute; reflexivity. Qed.

(** ** Keys of the emitted objects *)

Lemma defineProperty_keys p acc :
  map key (defineProperty p acc)
  = if bool_decide (key p ∈ map key acc) then map key acc
    else map key acc ++ [key p].
Proof.
  induction acc as [|q rest IH]; cbn [defineProperty map].
  - by rewrite bool_decide_eq_false_2 by apply not_elem_of_nil.
  - destruct (String.eqb (key p) (key q)) eqn:E.
    + apply String.eqb_eq in E. rewrite bool_decide_eq_true_2 by (rewrite E; left).
      cbn [map]. by rewrite E.
    + apply String.eqb_neq in E. cbn [map]. rewrite IH.
      destruct (bool_decide (key p ∈ map key rest)) eqn:Hin.
      * apply bool_decide_eq_true in Hin.
        by rewrite bool_decide_eq_true_2 by by right.
      * apply bool_decide_eq_false in Hin.
        rewrite bool_decide_eq_false_2; [done|].
        by intros [?|?]%elem_of_cons.
Qed.

Lemma defineProperty_NoDup p acc :
  NoDup (map key acc) → NoDup (map key (defineProperty p acc)).
Proof.
  intros Hnd. rewrite defineProperty_keys. case_bool_decide as Hin; [done|].
  apply NoDup_app. split; [done|]. split; [|apply NoDup_singleton].
  intros x Hx ->%list_elem_of_singleton. done.
Qed.

(** The object an object literal evaluates to has distinct keys. *)
Lemma objectLiteral_NoDup ps : NoDup (map key (objectLiteral ps)).
Proof.
  unfold objectLiteral.
  assert (∀ acc, NoDup (map key acc) →
                 NoDup (map key (fold_left (λ acc p, defineProperty p acc) ps acc)))
    as H.
  { induction ps as [|p ps IH]; intros acc Hacc; [done|].
    cbn [fold_left]. apply IH. by apply defineProperty_NoDup. }
  apply H. constructor.
Qed.

(** ** Termination of the fill of an empty object *)

Lemma wfAttr_TypeLiteral env fields isArray :
  wfAttr env (TypeLiteral fields isArray) = wfProps env fields.
Proof. reflexivity. Qed.

Lemma attrSize_TypeLiteral fields isArray :
  attrSize (TypeLiteral fields isArray) = S (propsSize fields).
Proof. reflexivity. Qed.

Lemma wfProps_cons env p rest :
  wfProps env (p :: rest) = true →
  (key p ∉ map key rest) ∧ wfProp env p = true ∧ wfProps env rest = true.
Proof.
  unfold wfProps. cbn [map forallb].
  intros [Hnd [Hp Hrest]%andb_true_iff]%andb_true_iff.
  apply bool_decide_eq_true in Hnd. apply NoDup_cons in Hnd as [? ?].
  repeat split; [done..|]. apply andb_true_iff. split; [|done].
  by apply bool_decide_eq_true.
Qed.

Lemma wfProp_read env p :
  wfProp env p = true →
  readAttribute env p = Returned (attribute p)
  ∧ ∃ a, last (attribute p) = Some a ∧ wfAttr env a = true
         ∧ (attrSize a < propSize p)%nat.
Proof.
  unfold wfProp, readAttribute, propSize.
  destruct (attribute p) as [|a0 attrs] eqn:E; [done|]. intros Hall.
  split.
  - replace (forallb (resolves env) (a0 :: attrs)) with true; [done|].
    symmetry. apply forallb_forall. intros a Ha.
    pose proof (proj1 (forallb_forall _ _) Hall a Ha) as Hwf.
    by destruct a.
  - destruct (last (a0 :: attrs)) as [a|] eqn:Hlast.
    2:{ by apply last_None in Hlast. }
    exists a. split; [done|].
    apply last_Some in Hlast as [pre Hpre]. rewrite Hpre in *.
    split.
    + apply (proj1 (forallb_forall _ _) Hall). apply in_app_iff. right. by left.
    + rewrite map_app, list_sum_app. cbn. lia.
Qed.

Lemma unvisited_add (env : gmap string GuarderType) (visited : gset string) name :
  is_Some (env !! name) → name ∉ visited →
  (size (dom env ∖ (visited ∪ {[name]})) < size (dom env ∖ visited))%nat.
Proof.
  intros Hin%elem_of_dom Hnot. apply subset_size. split.
  - intros x [Hx Hn]%elem_of_difference. apply elem_of_difference.
    split; [done|]. intros ?. apply Hn. apply elem_of_union. by left.
  - intros Hsub. assert (name ∈ dom env ∖ (visited ∪ {[name]})) as Hname.
    { apply Hsub. by apply elem_of_difference. }
    apply elem_of_difference in Hname as [_ Hname]. apply Hname.
    apply elem_of_union. right. by apply elem_of_singleton.
Qed.

Lemma unvisited_mono (env : gmap string GuarderType) (visited visited' : gset string) :
  visited ⊆ visited' →
  (size (dom env ∖ visited') ≤ size (dom env ∖ visited))%nat.
Proof.
  intros Hsub. apply subseteq_size.
  intros x [Hx Hn]%elem_of_difference. apply elem_of_difference.
  split; [done|]. intros ?. apply Hn. by apply Hsub.
Qed.

Lemma guardEntries_more_fuel fuel fuel' env props target visited out :
  (fuel ≤ fuel')%nat →
  guardEntries env (applySchemaGuard fuel env) props target visited = Returned out →
  guardEntries env (applySchemaGuard fuel' env) props target visited = Returned out.
Proof.
  intros Hle. apply below_returned. apply guardEntries_below.
  intros. by apply applySchemaGuard_fuel_le.
Qed.

Section FillTerminates.
Context (env : gmap string GuarderType).
Hypothesis env_wf : wfEnv env.

(** The fill of [{}] returns, given that it does for every declaration
    entered with fewer unvisited declarations and for every smaller type
    literal. *)
Lemma fill_entries_terminate n m :
  (∀ s visited,
     wfSchema env s = true → (size (dom env ∖ visited) < n)%nat →
     ∃ fuel out, applySchemaGuard fuel env (VObj []) s false visited = Returned out
                 ∧ visited ⊆ visitedAfter out) →
  (∀ fields visited,
     wfProps env fields = true → (propsSize fields < m)%nat →
     (size (dom env ∖ visited) ≤ n)%nat →
     ∃ fuel out, applySchemaGuard fuel env (VObj []) (inlineSchema fields) false
                   visited = Returned out
                 ∧ visited ⊆ visitedAfter out) →
  ∀ props target visited,
    wfProps env props = true → (propsSize props ≤ m)%nat →
    (size (dom env ∖ visited) ≤ n)%nat →
    Forall (λ p, hasKey (key p) target = Returned false) props →
    ∃ fuel out,
      guardEntries env (applySchemaGuard fuel env) props target visited
        = Returned out
      ∧ visited ⊆ visitedAfter out.
Proof.
  intros IHref IHlit props.
  induction props as [|p rest IH]; intros target visited Hwf Hsize Hn Habsent.
  { by exists 0%nat, (GuardResult target target visited). }
  apply wfProps_cons in Hwf as (Hkey & Hp & Hrest).
  apply Forall_cons in Habsent as [Hp_absent Hrest_absent].
  destruct (wfProp_read _ _ Hp) as (Hread & a & Hlast & Ha & Hsize_a).
  assert (propsSize (p :: rest) = propSize p + propsSize rest)%nat as Hsplit
    by reflexivity.
  cbn [guardEntries]. rewrite Hp_absent, Hread. cbn [mbind outcome_bind].
  rewrite Hlast.
  destruct (visitedHas visited a) eqn:Hhas.
  { exists 0%nat. eexists. split; [reflexivity | done]. }
  (* the value assigned to the key, and the visited set after it *)
  assert (∃ fuel1 v visited1,
            autoFillValue env (applySchemaGuard fuel1 env) p
                          (visitedAdd visited a) = Returned (v, visited1)
            ∧ visited ⊆ visited1) as (fuel1 & v & visited1 & Hfill & Hsub).
  { unfold autoFillValue. rewrite Hread. cbn [mbind outcome_bind]. rewrite Hlast.
    destruct a as [kw arr|lit arr|fields arr|name arr]; cbn [attrIsArray visitedAdd].
    - exists 0%nat. destruct arr; eexists _, _; split; done.
    - exists 0%nat. destruct arr; eexists _, _; split; done.
    - destruct arr; [exists 0%nat; eexists _, _; split; done|].
      rewrite wfAttr_TypeLiteral in Ha. rewrite attrSize_TypeLiteral in Hsize_a.
      destruct (IHlit fields visited Ha) as (fuel1 & out & Hrun & Hsub); [lia..|].
      exists fuel1. unfold fillTypeLiteral. rewrite Hrun.
      eexists _, _. split; [reflexivity | done].
    - destruct arr; [exists 0%nat; eexists _, _; split; [done|set_solver]|].
      cbn [wfAttr] in Ha. apply bool_decide_eq_true in Ha as [s Hs].
      cbn [visitedHas] in Hhas. apply bool_decide_eq_false in Hhas.
      destruct (IHref s (visited ∪ {[name]})) as (fuel1 & out & Hrun & Hsub).
      { by apply env_wf in Hs. }
      { eapply Nat.lt_le_trans; [by apply unvisited_add|done]. }
      exists fuel1. unfold fillTypeReference, resolve. rewrite Hs.
      cbn [mbind outcome_bind]. rewrite Hrun.
      eexists _, _. split; [reflexivity | set_solver]. }
  destruct (IH (setField target (key p) v) visited1) as (fuel2 & out & Hloop & Hsub2).
  - done.
  - lia.
  - etrans; [by apply unvisited_mono | done].
  - apply Forall_forall. intros q Hq.
    rewrite hasKey_setField_ne.
    + by apply (proj1 (Forall_forall _ _) Hrest_absent).
    + intros Heq. apply Hkey. rewrite <-Heq. by apply list_elem_of_fmap_2.
  - exists (fuel1 `max` fuel2)%nat, out. split; [|set_solver].
    assert (autoFillValue env (applySchemaGuard (fuel1 `max` fuel2) env) p
              (visitedAdd visited a) = Returned (v, visited1)) as ->.
    { eapply below_returned; [|exact Hfill]. apply autoFillValue_below.
      intros. apply applySchemaGuard_fuel_le. lia. }
    cbn [mbind outcome_bind].
    apply (guardEntries_more_fuel fuel2); [lia | done].
Qed.

(** Declarations walked key by key, at a given bound on the unvisited
    declarations. *)
Lemma fill_object_terminates_bounded n :
  (∀ s visited,
     wfSchema env s = true → (size (dom env ∖ visited) < n)%nat →
     ∃ fuel out, applySchemaGuard fuel env (VObj []) s false visited = Returned out
                 ∧ visited ⊆ visitedAfter out) →
  ∀ m s visited,
    isTypeAlias s = false →
    wfProps env (entries s) = true → (propsSize (entries s) ≤ m)%nat →
    (size (dom env ∖ visited) ≤ n)%nat →
    ∃ fuel out, applySchemaGuard fuel env (VObj []) s false visited = Returned out
                ∧ visited ⊆ visitedAfter out.
Proof.
  intros IHref m. induction m as [m IHm] using lt_wf_ind.
  intros s visited Ealias Hprops Hsize Hn.
  destruct (fill_entries_terminate n m IHref) with (props := entries s)
    (target := VObj []) (visited := visited) as (fuel & out & Hrun & Hsub);
    [|done..| |].
  - intros fields visited' Hwf Hlt Hn'.
    by apply (IHm _ Hlt (inlineSchema fields) visited').
  - apply Forall_forall. by intros.
  - exists (S fuel), out. split; [|done].
    rewrite applySchemaGuard_S. unfold applySchemaGuardBody. by rewrite Ealias.
Qed.

Lemma fill_terminates_bounded n :
  ∀ s visited,
    wfSchema env s = true → (size (dom env ∖ visited) ≤ n)%nat →
    ∃ fuel out, applySchemaGuard fuel env (VObj []) s false visited = Returned out
                ∧ visited ⊆ visitedAfter out.
Proof.
  induction n as [n IHn] using lt_wf_ind.
  assert (∀ s visited,
     wfSchema env s = true → (size (dom env ∖ visited) < n)%nat →
     ∃ fuel out, applySchemaGuard fuel env (VObj []) s false visited = Returned out
                 ∧ visited ⊆ visitedAfter out) as IHref.
  { intros s visited Hs Hlt. by eapply (IHn _ Hlt). }
  pose proof (fill_object_terminates_bounded n IHref) as Hobject.
  intros s visited Hs Hn.
  apply andb_true_iff in Hs as [Hprops Halias].
  destruct (isTypeAlias s) eqn:Ealias; [|by eapply Hobject].
  (* a literal-union declaration: its first property is filled *)
  unfold aliasEndsInAlias in Halias.
  destruct (entries s) as [|p rest] eqn:Eentries; [done|].
  apply wfProps_cons in Hprops as (_ & Hp & _).
  destruct (wfProp_read _ _ Hp) as (Hread & a & Hlast & Ha & Hsize_a).
  rewrite Hlast in Halias.
  assert (∃ fuel1 v visited1,
            autoFillValue env (applySchemaGuard fuel1 env) p visited
              = Returned (v, visited1)
            ∧ visited ⊆ visited1) as (fuel1 & v & visited1 & Hfill & Hsub).
  { unfold autoFillValue. rewrite Hread. cbn [mbind outcome_bind]. rewrite Hlast.
    destruct a as [kw arr|lit arr|fields arr|name arr]; cbn [attrIsArray].
    - exists 0%nat. destruct arr; eexists _, _; split; done.
    - exists 0%nat. destruct arr; eexists _, _; split; done.
    - destruct arr; [exists 0%nat; eexists _, _; split; done|].
      rewrite wfAttr_TypeLiteral in Ha.
      destruct (Hobject (propsSize fields) (inlineSchema fields) visited)
        as (fuel1 & out & Hrun & Hsub); [done..|].
      exists fuel1. unfold fillTypeLiteral. rewrite Hrun.
      eexists _, _. split; [reflexivity | done].
    - destruct arr; [exists 0%nat; eexists _, _; split; done|].
      cbn [wfAttr] in Ha. apply bool_decide_eq_true in Ha as [s' Hs'].
      rewrite Hs' in Halias. apply negb_true_iff in Halias.
      pose proof (env_wf _ _ Hs') as [Hwf' _]%andb_true_iff.
      destruct (Hobject (propsSize (entries s')) s' visited)
        as (fuel1 & out & Hrun & Hsub); [done..|].
      exists fuel1. unfold fillTypeReference, resolve. rewrite Hs'.
      cbn [mbind outcome_bind]. rewrite Hrun.
      eexists _, _. split; [reflexivity | done]. }
  exists (S fuel1), (GuardResult v (VObj []) visited1). split; [|done].
  rewrite applySchemaGuard_S. unfold applySchemaGuardBody.
  rewrite Ealias, Eentries, Hfill. done.
Qed.

(** The fill of [{}] returns for every well-formed schema, and goes on
    returning the same with more fuel. *)
Lemma fill_terminates s visited :
  wfSchema env s = true →
  ∃ fuel out, ∀ fuel',
    (fuel ≤ fuel')%nat →
    applySchemaGuard fuel' env (VObj []) s false visited = Returned out.
Proof.
  intros Hs.
  destruct (fill_terminates_bounded (size (dom env ∖ visited)) s visited)
    as (fuel & out & Hrun & _); [done..|].
  exists fuel, out. intros fuel' Hle. by apply (applySchemaGuard_more_fuel fuel).
Qed.
End FillTerminates.

Lemma wfEnv_envAB : wfEnv envAB.
Proof.
  unfold wfEnv, envAB.
  repeat (apply map_Forall_insert_2; [vm_compute; reflexivity|]).
  apply map_Forall_empty.
Qed.




(** ** Idempotence on plain schemas *)

Lemma plainAttr_TypeLiteral fields isArray :
  plainAttr (TypeLiteral fields isArray) = plainProps fields.
Proof. reflexivity. Qed.

Lemma plainAlternatives_inv l :
  plainAlternatives l = true →
  l = [] ∨ ∃ pre final, l = pre ++ [final]
                        ∧ Forall (λ a, scalarKind a = true) pre
                        ∧ plainAttr final = true.
Proof.
  induction l as [|a rest IH]; [by left|]. intros H. right.
  destruct rest as [|b rest].
  - exists [], a. by repeat split.
  - cbn in H. apply andb_true_iff in H as [Ha Hrest].
    destruct (IH Hrest) as [?|(pre & final & Hl & Hpre & Hfinal)]; [done|].
    exists (a :: pre), final. rewrite Hl. repeat split; [|done].
    by constructor.
Qed.

Lemma plainAttr_resolves env a : plainAttr a = true → resolves env a = true.
Proof. by destruct a. Qed.

Lemma plain_scalar_resolves env pre :
  Forall (λ a, scalarKind a = true) pre → forallb (resolves env) pre = true.
Proof.
  induction 1 as [|a pre Ha _ IH]; [done|]. cbn. rewrite IH.
  by destruct a.
Qed.

Lemma plain_read env p :
  plainAlternatives (attribute p) = true →
  readAttribute env p = Returned (attribute p).
Proof.
  intros [E|(pre & final & E & Hpre & Hfinal)]%plainAlternatives_inv;
    unfold readAttribute; rewrite E; [done|].
  rewrite forallb_app, plain_scalar_resolves by done. cbn.
  by rewrite plainAttr_resolves.
Qed.

Lemma plainProps_cons p rest :
  plainProps (p :: rest) = true →
  (key p ∉ map key rest) ∧ plainAlternatives (attribute p) = true
  ∧ plainProps rest = true.
Proof.
  unfold plainProps. cbn [map forallb].
  intros [Hnd [Hp Hrest]%andb_true_iff]%andb_true_iff.
  apply bool_decide_eq_true in Hnd. apply NoDup_cons in Hnd as [? ?].
  repeat split; [done..|]. apply andb_true_iff. split; [|done].
  by apply bool_decide_eq_true.
Qed.

(** The walk over a prefix of primitive and literal alternatives. *)
Lemma verifyWalk_prefix_pass env guard pre rest v flag :
  Forall (λ a, scalarKind a = true) pre →
  existsb (scalarCheck v) pre = true →
  verifyWalk env guard (pre ++ rest) v flag = Returned (v, true).
Proof.
  induction 1 as [|a pre Ha _ IH]; [done|]. cbn [existsb].
  rewrite <-app_comm_cons. destruct (scalarCheck v a) eqn:E.
  - intros _. by apply verifyWalk_scalar_pass.
  - intros H. rewrite verifyWalk_scalar_fail by done. by apply IH.
Qed.

Lemma verifyWalk_prefix_fail env guard pre rest v flag :
  Forall (λ a, scalarKind a = true) pre →
  existsb (scalarCheck v) pre = false →
  verifyWalk env guard (pre ++ rest) v flag = verifyWalk env guard rest v flag.
Proof.
  induction 1 as [|a pre Ha _ IH]; [done|]. cbn [existsb].
  intros [E H]%orb_false_iff.
  rewrite <-app_comm_cons, verifyWalk_scalar_fail by done. by apply IH.
Qed.

(** The per-key loop returns the object it mutated, of the same kind as the
    one it was given. *)
Lemma guardEntries_targetAfter env guard props target visited out :
  guardEntries env guard props target visited = Returned out →
  targetAfter out = result out
  ∧ isArrayValue (result out) = isArrayValue target.
Proof.
  revert target visited.
  induction props as [|p rest IH]; intros target visited; cbn [guardEntries].
  - by intros [= <-].
  - destruct (hasKey (key p) target) as [[]| |]; cbn [mbind outcome_bind];
      [| |done..].
    + destruct (verifyAndFillField _ _ _ _ _) as [[v vis]| |];
        cbn [mbind outcome_bind]; [|done..].
      intros [? ->]%IH. split; [done|]. by destruct target.
    + destruct (readAttribute env p) as [attrs| |]; cbn [mbind outcome_bind];
        [|done..].
      destruct (last attrs) as [a|]; [|done].
      destruct (visitedHas visited a).
      * intros [= <-]. split; [done|]. by destruct target.
      * destruct (autoFillValue _ _ _ _) as [[v vis]| |];
          cbn [mbind outcome_bind]; [|done..].
        intros [? ->]%IH. split; [done|]. by destruct target.
Qed.

Lemma applySchemaGuard_inline_targetAfter fuel env fields target visited out :
  applySchemaGuard fuel env target (inlineSchema fields) false visited
    = Returned out →
  targetAfter out = result out
  ∧ isArrayValue (result out) = isArrayValue target.
Proof.
  destruct fuel as [|fuel]; [done|]. rewrite applySchemaGuard_S.
  apply guardEntries_targetAfter.
Qed.

Lemma guardEntries_other_field env guard props k target visited out :
  k ∉ map key props →
  guardEntries env guard props target visited = Returned out →
  getField (result out) k = getField target k.
Proof.
  revert target visited.
  induction props as [|p rest IH]; intros target visited Hk; cbn [guardEntries].
  - by intros [= <-].
  - apply not_elem_of_cons in Hk as [Hne Hk].
    destruct (hasKey (key p) target) as [[]| |]; cbn [mbind outcome_bind];
      [| |done..].
    + destruct (verifyAndFillField _ _ _ _ _) as [[v vis]| |];
        cbn [mbind outcome_bind]; [|done..].
      intros H. by rewrite (IH _ _ Hk H), getField_setField_ne.
    + destruct (readAttribute env p) as [attrs| |]; cbn [mbind outcome_bind];
        [|done..].
      destruct (last attrs) as [a|]; [|done].
      destruct (visitedHas visited a).
      * intros [= <-]. cbn [result]. by rewrite getField_setField_ne.
      * destruct (autoFillValue _ _ _ _) as [[v vis]| |];
          cbn [mbind outcome_bind]; [|done..].
        intros H. by rewrite (IH _ _ Hk H), getField_setField_ne.
Qed.

Section Idempotence.
Context (env : gmap string GuarderType).
Context (guard : value → GuarderType → bool → gset string → outcome GuardOut).
(** What the induction on the fuel provides for the nested calls. *)
Hypothesis guard_idem : ∀ x fields visited visited' out,
  plainProps fields = true →
  guard x (inlineSchema fields) false visited = Returned out →
  guard (result out) (inlineSchema fields) false visited'
  = Returned (GuardResult (result out) (result out) visited').
Hypothesis guard_target : ∀ x fields visited out,
  guard x (inlineSchema fields) false visited = Returned out →
  targetAfter out = result out ∧ isArrayValue (result out) = isArrayValue x.

Lemma guardEach_idem items fields items' :
  plainProps fields = true →
  guardEach guard items (inlineSchema fields) = Returned items' →
  guardEach guard items' (inlineSchema fields) = Returned items'.
Proof.
  intros Hplain. revert items'.
  induction items as [|item rest IH]; intros items'; cbn [guardEach].
  - by intros [= <-].
  - destruct (guard item _ _ _) as [out| |] eqn:Hrun; cbn [mbind outcome_bind];
      [|done..].
    destruct (guardEach guard rest _) as [rest'| |]; cbn [mbind outcome_bind];
      [|done..].
    intros [= <-]. cbn [guardEach].
    destruct (guard_target _ _ _ _ Hrun) as [-> _].
    rewrite (guard_idem _ _ _ ∅ _ Hplain Hrun). cbn [mbind outcome_bind targetAfter].
    by rewrite (IH rest').
Qed.

Lemma checkSchema_idem v isArray fields c :
  plainProps fields = true →
  checkSchema guard v isArray (inlineSchema fields) = Returned c →
  checkSchema guard (checked c) isArray (inlineSchema fields)
  = Returned (CheckRes true (checked c)).
Proof.
  intros Hplain. unfold checkSchema.
  assert (∀ out, guard v (inlineSchema fields) false ∅ = Returned out →
                 (isArray && isArrayValue v = false) →
                 Returned (CheckRes true (targetAfter out)) = Returned c →
                 match isArray, checked c with
                 | true, VArr items ps =>
                     guardEach guard items (inlineSchema fields)
                     ≫= λ items', Returned (CheckRes true (VArr items' ps))
                 | _, _ =>
                     guard (checked c) (inlineSchema fields) false ∅
                     ≫= λ out, Returned (CheckRes true (targetAfter out))
                 end = Returned (CheckRes true (checked c))) as Helse.
  { intros out Hrun Hshape [= <-]. cbn [checked].
    destruct (guard_target _ _ _ _ Hrun) as [Ht Harr]. rewrite Ht.
    assert (isArray && isArrayValue (result out) = false) as Hshape'
      by by rewrite Harr.
    rewrite (guard_idem _ _ _ ∅ _ Hplain Hrun).
    destruct isArray; [|done]. by destruct (result out). }
  destruct isArray, v;
    try (destruct (guard _ _ _ _) as [out| |] eqn:Hrun; cbn [mbind outcome_bind];
         [by apply Helse | done..]).
  destruct (guardEach guard items _) as [items'| |] eqn:Hrun;
    cbn [mbind outcome_bind]; [|done..].
  intros [= <-]. cbn [checked].
  by rewrite (guardEach_idem _ _ _ Hplain Hrun).
Qed.

(** Guarding a present value again: it is kept as soon as the last
    alternative keeps it, whatever the primitive and literal alternatives
    before it say. *)
Lemma stable_by_last p pre final v :
  attribute p = pre ++ [final] →
  Forall (λ a, scalarKind a = true) pre →
  plainAttr final = true →
  match final with
  | TypeLiteral fields isArray =>
      checkSchema guard v isArray (inlineSchema fields) = Returned (CheckRes true v)
  | _ => scalarCheck v final = true ∨ specDefault final = Some v
  end →
  stable env guard p v.
Proof.
  intros Hattr Hpre Hfinal Hlast visited.
  assert (readAttribute env p = Returned (attribute p)) as Hread.
  { unfold readAttribute. rewrite Hattr.
    rewrite forallb_app, plain_scalar_resolves by done. cbn.
    by rewrite plainAttr_resolves. }
  unfold verifyAndFillField. rewrite Hread. cbn [mbind outcome_bind].
  rewrite Hattr.
  destruct (existsb (scalarCheck v) pre) eqn:Hany.
  { by rewrite verifyWalk_prefix_pass. }
  rewrite verifyWalk_prefix_fail by done.
  assert (scalarKind final = true →
          scalarCheck v final = true ∨ specDefault final = Some v →
          verifyWalk env guard [final] v false ≫=
            (λ '(newParam, verifyFlag),
               if verifyFlag : bool then Returned (newParam, visited)
               else autoFillValue env guard p visited)
          = Returned (v, visited)) as Hscalar.
  { intros Hkind Hor. destruct (scalarCheck v final) eqn:Hcheck.
    - by rewrite verifyWalk_scalar_pass.
    - destruct Hor as [|Hdefault]; [done|].
      rewrite verifyWalk_scalar_fail by done. cbn.
      apply autoFillValue_specDefault with final; [done| |done].
      by rewrite Hattr, last_snoc. }
  destruct final as [kw arr|lit arr|fields arr|]; [by apply Hscalar..| |done].
  cbn [verifyWalk]. unfold checkTypeLiteral. rewrite Hlast. done.
Qed.

Lemma stable_after_autoFill p visited v visited1 :
  plainAlternatives (attribute p) = true →
  autoFillValue env guard p visited = Returned (v, visited1) →
  stable env guard p v.
Proof.
  intros Hplain.
  pose proof (plain_read env p Hplain) as Hread.
  apply plainAlternatives_inv in Hplain
    as [E|(pre & final & Hattr & Hpre & Hfinal)].
  { unfold autoFillValue. rewrite Hread, E. done. }
  unfold autoFillValue. rewrite Hread. cbn [mbind outcome_bind].
  rewrite Hattr, last_snoc. intros Hfill.
  apply (stable_by_last p pre final); [done..|].
  destruct final as [kw arr|lit arr|fields arr|]; [| | |done].
  - right. unfold specDefault. cbn [attrIsArray] in *.
    destruct arr; simplify_eq; [done|]. by destruct kw.
  - right. unfold specDefault. cbn [attrIsArray] in *.
    destruct arr; by simplify_eq.
  - cbn [attrIsArray] in Hfill. destruct arr; [by simplify_eq|].
    unfold fillTypeLiteral in Hfill.
    destruct (guard _ _ _ _) as [out| |] eqn:Hrun;
      cbn [mbind outcome_bind] in Hfill; [|done..].
    simplify_eq. rewrite plainAttr_TypeLiteral in Hfinal.
    destruct (guard_target _ _ _ _ Hrun) as [Ht _].
    unfold checkSchema. rewrite Ht.
    by rewrite (guard_idem _ _ _ ∅ _ Hfinal Hrun).
Qed.

Lemma stable_after_verify p v visited v' visited1 :
  plainAlternatives (attribute p) = true →
  verifyAndFillField env guard v p visited = Returned (v', visited1) →
  stable env guard p v'.
Proof.
  intros Hplain Hrun.
  pose proof (plain_read env p Hplain) as Hread.
  pose proof Hplain as [E|(pre & final & Hattr & Hpre & Hfinal)]%plainAlternatives_inv.
  { revert Hrun. unfold verifyAndFillField, autoFillValue.
    rewrite Hread, E. done. }
  revert Hrun. unfold verifyAndFillField. rewrite Hread.
  cbn [mbind outcome_bind]. rewrite Hattr.
  destruct (existsb (scalarCheck v) pre) eqn:Hany.
  { rewrite verifyWalk_prefix_pass by done. intros [= <- <-].
    intros visited'. unfold verifyAndFillField. rewrite Hread.
    cbn [mbind outcome_bind]. by rewrite Hattr, verifyWalk_prefix_pass. }
  rewrite verifyWalk_prefix_fail by done.
  destruct final as [kw arr|lit arr|fields arr|]; [| | |done].
  - cbn [verifyWalk].
    destruct (isVerify (checkBaseType v arr kw)) eqn:Hcheck.
    + rewrite checkBaseType_checked. intros [= <- <-].
      apply (stable_by_last p pre (BaseType kw arr)); [done..|]. by left.
    + cbn [mbind outcome_bind]. by apply stable_after_autoFill.
  - cbn [verifyWalk].
    destruct (isVerify (checkAliasType v arr lit)) eqn:Hcheck.
    + rewrite checkAliasType_checked by done. intros [= <- <-].
      apply (stable_by_last p pre (Alias lit arr)); [done..|]. by left.
    + cbn [mbind outcome_bind]. by apply stable_after_autoFill.
  - cbn [verifyWalk]. unfold checkTypeLiteral.
    destruct (checkSchema guard v arr _) as [c| |] eqn:Hc;
      cbn [mbind outcome_bind]; [|done..].
    rewrite plainAttr_TypeLiteral in Hfinal.
    pose proof (checkSchema_idem _ _ _ _ Hfinal Hc) as Hagain.
    assert (isVerify c = true) as ->.
    { revert Hc. unfold checkSchema.
      destruct arr, v;
        try (destruct (guard _ _ _ _); cbn [mbind outcome_bind]; [|done..];
             by intros [= <-]).
      destruct (guardEach _ _ _); cbn [mbind outcome_bind]; [|done..].
      by intros [= <-]. }
    cbn [verifyWalk]. intros [= <- <-].
    by apply (stable_by_last p pre (TypeLiteral fields arr)).
Qed.

(** After the loop every property of the schema is on the object, with a
    value the guard keeps. *)
Lemma guardEntries_stable props target visited out :
  plainProps props = true →
  guardEntries env guard props target visited = Returned out →
  Forall (λ p, hasKey (key p) (result out) = Returned true
               ∧ stable env guard p (getField (result out) (key p))) props.
Proof.
  revert target visited.
  induction props as [|p rest IH]; intros target visited Hplain; [done|].
  apply plainProps_cons in Hplain as (Hkey & Hp & Hrest).
  cbn [guardEntries].
  assert (∀ v visited1,
            stable env guard p v →
            (∃ b, hasKey (key p) target = Returned b) →
            guardEntries env guard rest (setField target (key p) v) visited1
              = Returned out →
            Forall (λ p, hasKey (key p) (result out) = Returned true
                         ∧ stable env guard p (getField (result out) (key p)))
                   (p :: rest)) as Hstep.
  { intros v visited1 Hv [b Hb] Hloop. constructor; [|by eapply IH].
    rewrite (guardEntries_other_key _ _ _ _ _ _ _ Hkey Hloop).
    rewrite (guardEntries_other_field _ _ _ _ _ _ _ Hkey Hloop).
    rewrite (hasKey_setField_eq _ _ _ _ Hb), (getField_setField_eq _ _ _ _ Hb).
    done. }
  destruct (hasKey (key p) target) as [[]| |] eqn:Hhas; cbn [mbind outcome_bind];
    [| |done..].
  - destruct (verifyAndFillField _ _ _ _ _) as [[v vis]| |] eqn:Hv;
      cbn [mbind outcome_bind]; [|done..].
    apply Hstep; [by eapply stable_after_verify | eauto].
  - rewrite (plain_read env p Hp). cbn [mbind outcome_bind].
    destruct (last (attribute p)) as [a|] eqn:Hlast; [|done].
    assert (visitedHas visited a = false) as ->.
    { destruct a as [| | |name arr]; try done.
      apply plainAlternatives_inv in Hp as [E|(pre & final & E & _ & Hfinal)];
        rewrite E in Hlast; [done|].
      rewrite last_snoc in Hlast. by simplify_eq. }
    destruct (autoFillValue _ _ _ _) as [[v vis]| |] eqn:Hv;
      cbn [mbind outcome_bind]; [|done..].
    apply Hstep; [by eapply stable_after_autoFill | eauto].
Qed.

(** On such an object the loop changes nothing. *)
Lemma guardEntries_fixpoint props target visited :
  Forall (λ p, hasKey (key p) target = Returned true
               ∧ stable env guard p (getField target (key p))) props →
  guardEntries env guard props target visited
  = Returned (GuardResult target target visited).
Proof.
  induction 1 as [|p rest [Hhas Hstable] _ IH]; [done|].
  cbn [guardEntries]. rewrite Hhas. cbn [mbind outcome_bind].
  rewrite Hstable. cbn [mbind outcome_bind].
  by rewrite setField_getField.
Qed.

Lemma guardEntries_idem props target visited visited' out :
  plainProps props = true →
  guardEntries env guard props target visited = Returned out →
  guardEntries env guard props (result out) visited'
  = Returned (GuardResult (result out) (result out) visited').
Proof.
  intros Hplain Hrun. apply guardEntries_fixpoint.
  by eapply guardEntries_stable.
Qed.
End Idempotence.


Lemma applySchemaGuard_object_idem fuel env :
  ∀ x s visited visited' out,
    isTypeAlias s = false →
    plainProps (entries s) = true →
    applySchemaGuard fuel env x s false visited = Returned out →
    applySchemaGuard fuel env (result out) s false visited'
    = Returned (GuardResult (result out) (result out) visited').
Proof.
  induction fuel as [|fuel IH]; [done|].
  intros x s visited visited' out Halias Hplain.
  rewrite !applySchemaGuard_S. unfold applySchemaGuardBody. rewrite Halias.
  intros Hrun.
  eapply (guardEntries_idem env (applySchemaGuard fuel env));
    [| |exact Hplain|exact Hrun].
  - intros x' fields vis vis' out' Hfields. by apply IH.
  - intros x' fields vis out'. apply applySchemaGuard_inline_targetAfter.
Qed.




(** * Further properties of the guard *)

Lemma hasKey_setField_keeps k k' v target :
  hasKey k target = Returned true →
  hasKey k (setField target k' v) = Returned true.
Proof.
  intros H. destruct (decide (k = k')) as [->|Hne].
  - by eapply hasKey_setField_eq.
  - by rewrite hasKey_setField_ne.
Qed.

Lemma guardEntries_keeps_key env guard props k target visited out :
  hasKey k target = Returned true →
  guardEntries env guard props target visited = Returned out →
  hasKey k (result out) = Returned true.
Proof.
  revert target visited.
  induction props as [|p rest IH]; intros target visited Hk; cbn [guardEntries].
  - by intros [= <-].
  - destruct (hasKey (key p) target) as [[]| |]; cbn [mbind outcome_bind];
      [| |done..].
    + destruct (verifyAndFillField _ _ _ _ _) as [[v vis]| |];
        cbn [mbind outcome_bind]; [|done..].
      apply IH. by apply hasKey_setField_keeps.
    + destruct (readAttribute env p) as [attrs| |]; cbn [mbind outcome_bind];
        [|done..].
      destruct (last attrs) as [a|]; [|done].
      destruct (visitedHas visited a).
      * intros [= <-]. by apply hasKey_setField_keeps.
      * destruct (autoFillValue _ _ _ _) as [[v vis]| |];
          cbn [mbind outcome_bind]; [|done..].
        apply IH. by apply hasKey_setField_keeps.
Qed.

Lemma readAttribute_inv env p attrs :
  readAttribute env p = Returned attrs → attrs = attribute p.
Proof. unfold readAttribute. by destruct (forallb _ _); intros [= <-]. Qed.

Lemma guardEntries_complete env guard props target visited out :
  Forall (λ p, lastIsReference p = false) props →
  guardEntries env guard props target visited = Returned out →
  Forall (λ p, hasKey (key p) (result out) = Returned true) props.
Proof.
  intros Hprops. revert target visited.
  induction Hprops as [|p rest Hp _ IH]; intros target visited; [done|].
  cbn [guardEntries].
  assert (∀ v visited1,
            (∃ b, hasKey (key p) target = Returned b) →
            guardEntries env guard rest (setField target (key p) v) visited1
              = Returned out →
            Forall (λ p, hasKey (key p) (result out) = Returned true) (p :: rest))
    as Hstep.
  { intros v visited1 [b Hb] Hloop. constructor; [|by eapply IH].
    eapply guardEntries_keeps_key; [|done]. by eapply hasKey_setField_eq. }
  destruct (hasKey (key p) target) as [[]| |] eqn:Hhas; cbn [mbind outcome_bind];
    [| |done..].
  - destruct (verifyAndFillField _ _ _ _ _) as [[v vis]| |];
      cbn [mbind outcome_bind]; [|done..].
    apply Hstep. eauto.
  - destruct (readAttribute env p) as [attrs| |] eqn:Hread;
      cbn [mbind outcome_bind]; [|done..].
    apply readAttribute_inv in Hread as ->.
    unfold lastIsReference in Hp.
    destruct (last (attribute p)) as [a|]; [|done].
    assert (visitedHas visited a = false) as -> by by destruct a.
    destruct (autoFillValue _ _ _ _) as [[v vis]| |];
      cbn [mbind outcome_bind]; [|done..].
    apply Hstep. eauto.
Qed.

(** X1: when no property of an object schema ends in a type reference, a
    guard that returns has put every property of the schema on the result. *)
Theorem guard_complete_without_reference_defaults
    fuel env target s visited out :
  isTypeAlias s = false →
  Forall (λ p, lastIsReference p = false) (entries s) →
  applySchemaGuard fuel env target s false visited = Returned out →
  Forall (λ p, hasKey (key p) (result out) = Returned true) (entries s).
Proof.
  intros Halias Hprops. destruct fuel as [|fuel]; [done|].
  rewrite applySchemaGuard_S. unfold applySchemaGuardBody. rewrite Halias.
  by apply guardEntries_complete.
Qed.

Lemma guard_complete_without_reference_defaults_witness :
  Forall (λ p, hasKey (key p)
                 (VObj [("name", VStr "zcy"); ("age", VNum 1);
                        ("tags", VArr [] [])]) = Returned true)
         (entries scenario1).
Proof.
  apply (guard_complete_without_reference_defaults 1 ∅
           (VObj [("name", VStr "zcy")]) scenario1 ∅
           (GuardResult
              (VObj [("name", VStr "zcy"); ("age", VNum 1); ("tags", VArr [] [])])
              (VObj [("name", VStr "zcy"); ("age", VNum 1); ("tags", VArr [] [])])
              ∅)).
  - reflexivity.
  - repeat constructor.
  - vm_compute. reflexivity.
Defined.



(** Reading the alternatives of a property fails exactly when one of them
    references a binding the module does not define. *)
Lemma readAttribute_unresolved env p :
  (∃ name isArray, TypeReference name isArray ∈ attribute p ∧ env !! name = None) →
  readAttribute env p = Thrown ReferenceError.
Proof.
  intros (name & arr & Hin & Hnone). unfold readAttribute.
  destruct (forallb (resolves env) (attribute p)) eqn:E; [|done].
  apply list_elem_of_In in Hin.
  pose proof (proj1 (forallb_forall _ _) E _ Hin) as H. cbn in H.
  apply bool_decide_eq_true in H as [? H]. congruence.
Qed.

(** X3: a property one of whose alternatives references an undefined binding
    makes the guard throw a [ReferenceError] as soon as it is processed,
    whether its key is present or not, and whatever the other alternatives
    are; on a literal-union declaration this happens for every target. *)
Theorem unresolved_reference_throws fuel env p rest tag target visited :
  (∃ name isArray, TypeReference name isArray ∈ attribute p ∧ env !! name = None) →
  (is_Some (ownProps target) ∨ tag = Some TypeAliasDeclaration) →
  applySchemaGuard (S fuel) env target (Schema (p :: rest) tag) false visited
  = Thrown ReferenceError.
Proof.
  intros Hp%readAttribute_unresolved Htarget.
  rewrite applySchemaGuard_S. unfold applySchemaGuardBody.
  cbn [entries].
  destruct (isTypeAlias (Schema (p :: rest) tag)) eqn:Halias.
  - unfold autoFillValue. by rewrite Hp.
  - destruct Htarget as [[ps Hps]|Htag]; [|by subst].
    cbn [guardEntries]. unfold hasKey. rewrite Hps. cbn [mbind outcome_bind].
    case_bool_decide.
    + unfold verifyAndFillField. by rewrite Hp.
    + by rewrite Hp.
Qed.

Lemma unresolved_reference_throws_witness :
  guardCall 1 ∅ (VObj [("at", VStr "2026-01-01")])
            (Schema [atField] (Some InterfaceDeclaration)) false
  = Thrown ReferenceError
  ∧ guardCall 1 ∅ (VObj []) (Schema [atField] (Some InterfaceDeclaration)) false
    = Thrown ReferenceError.
Proof.
  assert (∃ name isArray,
            TypeReference name isArray ∈ attribute atField
            ∧ (∅ : gmap string GuarderType) !! name = None) as H.
  { exists "_Date__etaD", false. split; [by left | done]. }
  unfold guardCall. split.
  - rewrite (unresolved_reference_throws 0 ∅ atField [] _ _ ∅ H); [done|].
    left. by eexists.
  - rewrite (unresolved_reference_throws 0 ∅ atField [] _ _ ∅ H); [done|].
    left. by eexists.
Defined.

(** X4: a target that is not an object ([undefined], [null], a string, a
    number, a boolean) makes an object schema with at least one property
    throw a [TypeError] at the first [key in target]; with no property the
    target is returned as it is. *)
Theorem non_object_target fuel env target s visited :
  ownProps target = None →
  isTypeAlias s = false →
  applySchemaGuard (S fuel) env target s false visited
  = match entries s with
    | [] => Returned (GuardResult target target visited)
    | _ :: _ => Thrown TypeError
    end.
Proof.
  intros Htarget Halias.
  rewrite applySchemaGuard_S. unfold applySchemaGuardBody. rewrite Halias.
  destruct (entries s) as [|p rest]; [done|].
  cbn [guardEntries]. unfold hasKey. by rewrite Htarget.
Qed.

Lemma non_object_target_witness :
  guardCall 1 ∅ VUndefined scenario1 false = Thrown TypeError
  ∧ guardCall 1 ∅ VNull (inlineSchema []) false = Returned VNull.
Proof.
  unfold guardCall. split.
  - by rewrite (non_object_target 0 ∅ VUndefined scenario1 ∅).
  - by rewrite (non_object_target 0 ∅ VNull (inlineSchema []) ∅).
Defined.

Lemma verifyWalk_unchecked env guard attrs w flag :
  Forall (λ a, ∃ kw, a = BaseType kw false ∧ uncheckedKeyword kw = true) attrs →
  verifyWalk env guard attrs w flag = Returned (w, flag).
Proof.
  induction 1 as [|a attrs (kw & -> & Hkw) _ IH]; [done|].
  cbn [verifyWalk]. unfold checkBaseType. cbn [andb].
  destruct kw; try done; by destruct (typeof w).
Qed.

(** X5: [checkBaseType] has no case for [any], [unknown], [never], [bigint]
    and [symbol]: a property all of whose alternatives are such keywords
    (not arrays) never accepts a present value, which is replaced by
    [null]. *)
Theorem unchecked_keyword_value_replaced fuel env p v visited :
  attribute p ≠ [] →
  Forall (λ a, ∃ kw, a = BaseType kw false ∧ uncheckedKeyword kw = true)
         (attribute p) →
  verifyAndFillField env (applySchemaGuard fuel env) v p visited
    = Returned (VNull, visited)
  ∧ (∀ target rest,
       hasKey (key p) target = Returned true →
       guardEntries env (applySchemaGuard fuel env) (p :: rest) target visited
       = guardEntries env (applySchemaGuard fuel env) rest
           (setField target (key p) VNull) visited).
Proof.
  intros Hne Hall.
  assert (readAttribute env p = Returned (attribute p)) as Hread.
  { unfold readAttribute.
    replace (forallb (resolves env) (attribute p)) with true; [done|].
    symmetry. apply forallb_forall. intros a Ha%list_elem_of_In.
    by destruct (proj1 (Forall_forall _ _) Hall a Ha) as (kw & -> & _). }
  assert (∀ w, verifyWalk env (applySchemaGuard fuel env) (attribute p) w false
               = Returned (w, false)) as Hwalk.
  { intros w. by apply verifyWalk_unchecked. }
  assert (verifyAndFillField env (applySchemaGuard fuel env) v p visited
          = Returned (VNull, visited)) as Hfield.
  { unfold verifyAndFillField. rewrite Hread. cbn [mbind outcome_bind].
    rewrite Hwalk. cbn [mbind outcome_bind].
    destruct (last (attribute p)) as [a|] eqn:Hlast.
    2:{ by apply last_None in Hlast. }
    assert (a ∈ attribute p) as Ha.
    { apply last_Some in Hlast as [pre ->]. apply elem_of_app. right. by left. }
    destruct (proj1 (Forall_forall _ _) Hall a Ha) as (kw & -> & Hkw).
    apply autoFillValue_specDefault with (BaseType kw false); [done..|].
    by destruct kw. }
  split; [done|].
  intros target rest Hpresent. cbn [guardEntries]. rewrite Hpresent.
  cbn [mbind outcome_bind].
  assert (verifyAndFillField env (applySchemaGuard fuel env)
            (getField target (key p)) p visited = Returned (VNull, visited)) as ->;
    [|done].
  unfold verifyAndFillField. rewrite Hread. cbn [mbind outcome_bind].
  rewrite Hwalk. cbn [mbind outcome_bind].
  revert Hfield. unfold verifyAndFillField. rewrite Hread.
  cbn [mbind outcome_bind]. by rewrite Hwalk.
Qed.

Lemma unchecked_keyword_value_replaced_witness :
  guardCall 1 ∅ (VObj [("extra", VNum 5)]) (inlineSchema [anyField]) false
  = Returned (VObj [("extra", VNull)]).
Proof.
  destruct (unchecked_keyword_value_replaced 0 ∅ anyField (VNum 5) ∅)
    as [_ H].
  - done.
  - repeat constructor. by exists AnyKeyword.
  - unfold guardCall. rewrite applySchemaGuard_S. unfold applySchemaGuardBody.
    cbn [isTypeAlias inlineSchema declarationType entries].
    rewrite H by reflexivity. reflexivity.
Defined.

(** ** The visited set *)

Lemma grownFrom_refl env visited : grownFrom env visited visited.
Proof.
  split; [done|]. intros x Hx. apply elem_of_union. by left.
Qed.

Lemma grownFrom_trans env v1 v2 v3 :
  grownFrom env v1 v2 → grownFrom env v2 v3 → grownFrom env v1 v3.
Proof.
  intros [H12 H21] [H23 H32]. split; [by etrans|].
  intros x Hx%H32. apply elem_of_union in Hx as [Hx%H21|Hx]; [done|].
  apply elem_of_union. by right.
Qed.

Lemma grownFrom_visitedAdd env visited a :
  resolves env a = true → grownFrom env visited (visitedAdd visited a).
Proof.
  destruct a as [| | |name arr]; try (intros _; apply grownFrom_refl).
  cbn [resolves visitedAdd]. intros [s Hs]%bool_decide_eq_true. split.
  - intros x Hx. apply elem_of_union. by left.
  - intros x [Hx| ->%elem_of_singleton]%elem_of_union; apply elem_of_union;
      [by left|right]. apply elem_of_dom. eauto.
Qed.

Section VisitedGrows.
Context (env : gmap string GuarderType).
Context (guard : value → GuarderType → bool → gset string → outcome GuardOut).
Hypothesis guard_grows : ∀ target s isArray visited out,
  guard target s isArray visited = Returned out →
  grownFrom env visited (visitedAfter out).

Lemma autoFillValue_grows p visited v visited' :
  autoFillValue env guard p visited = Returned (v, visited') →
  grownFrom env visited visited'.
Proof.
  unfold autoFillValue.
  destruct (readAttribute env p) as [attrs| |]; cbn [mbind outcome_bind];
    [|done..].
  destruct (last attrs) as [a|]; [|done].
  destruct (attrIsArray a); [intros [= _ <-]; apply grownFrom_refl|].
  destruct a as [kw arr|lit arr|fields arr|name arr].
  - intros [= _ <-]. apply grownFrom_refl.
  - intros [= _ <-]. apply grownFrom_refl.
  - unfold fillTypeLiteral.
    destruct (guard _ _ _ _) as [out| |] eqn:Hrun; cbn [mbind outcome_bind];
      [|done..].
    intros [= _ <-]. by eapply guard_grows.
  - unfold fillTypeReference.
    destruct (resolve env name) as [s| |]; cbn [mbind outcome_bind]; [|done..].
    destruct (guard _ _ _ _) as [out| |] eqn:Hrun; cbn [mbind outcome_bind];
      [|done..].
    intros [= _ <-]. by eapply guard_grows.
Qed.

Lemma verifyAndFillField_grows target p visited v visited' :
  verifyAndFillField env guard target p visited = Returned (v, visited') →
  grownFrom env visited visited'.
Proof.
  unfold verifyAndFillField.
  destruct (readAttribute env p) as [attrs| |]; cbn [mbind outcome_bind];
    [|done..].
  destruct (verifyWalk _ _ _ _ _) as [[w []]| |]; cbn [mbind outcome_bind];
    [| |done..].
  - intros [= _ <-]. apply grownFrom_refl.
  - apply autoFillValue_grows.
Qed.

Lemma guardEntries_grows props target visited out :
  guardEntries env guard props target visited = Returned out →
  grownFrom env visited (visitedAfter out).
Proof.
  revert target visited.
  induction props as [|p rest IH]; intros target visited; cbn [guardEntries].
  - intros [= <-]. apply grownFrom_refl.
  - destruct (hasKey (key p) target) as [[]| |]; cbn [mbind outcome_bind];
      [| |done..].
    + destruct (verifyAndFillField _ _ _ _ _) as [[v vis]| |] eqn:Hv;
        cbn [mbind outcome_bind]; [|done..].
      intros Hloop%IH. eapply grownFrom_trans; [|done].
      by eapply verifyAndFillField_grows.
    + destruct (readAttribute env p) as [attrs| |] eqn:Hread;
        cbn [mbind outcome_bind]; [|done..].
      destruct (last attrs) as [a|] eqn:Hlast; [|done].
      destruct (visitedHas visited a).
      * intros [= <-]. apply grownFrom_refl.
      * destruct (autoFillValue _ _ _ _) as [[v vis]| |] eqn:Hv;
          cbn [mbind outcome_bind]; [|done..].
        intros Hloop%IH.
        eapply grownFrom_trans; [|eapply grownFrom_trans; [|done]].
        -- apply grownFrom_visitedAdd.
           revert Hread. unfold readAttribute.
           destruct (forallb _ _) eqn:E; [|done]. intros [= <-].
           apply (proj1 (forallb_forall _ _) E).
           apply last_Some in Hlast as [pre ->]. apply in_app_iff. right. by left.
        -- by eapply autoFillValue_grows.
Qed.

Lemma applySchemaGuardBody_grows target s isArray visited out :
  applySchemaGuardBody env guard target s isArray visited = Returned out →
  grownFrom env visited (visitedAfter out).
Proof.
  unfold applySchemaGuardBody.
  destruct isArray; [intros [= <-]; apply grownFrom_refl|].
  destruct (isTypeAlias s); [|apply guardEntries_grows].
  destruct (entries s) as [|p ?]; [done|].
  destruct (autoFillValue _ _ _ _) as [[v vis]| |] eqn:Hv;
    cbn [mbind outcome_bind]; [|done..].
  intros [= <-]. by eapply autoFillValue_grows.
Qed.
End VisitedGrows.



(** * Further properties of the parser *)

(** ** Binding names *)

Lemma length_append s1 s2 :
  String.length (s1 +:+ s2) = (String.length s1 + String.length s2)%nat.
Proof. induction s1 as [|c s1 IH]; [done|]. simpl. by f_equal. Qed.

Lemma length_rev_app s1 s2 :
  String.length (String.rev_app s1 s2)
  = (String.length s1 + String.length s2)%nat.
Proof.
  revert s2. induction s1 as [|c s1 IH]; intros s2; [done|].
  simpl. rewrite IH. simpl. lia.
Qed.

Lemma length_formatObjectName s :
  String.length (formatObjectName s) = (3 + 2 * String.length s)%nat.
Proof.
  unfold formatObjectName, String.rev.
  rewrite !length_append, length_rev_app. cbn. lia.
Qed.

Lemma append_inj_length a b x y :
  String.length a = String.length b → a +:+ x = b +:+ y → a = b.
Proof.
  revert b. induction a as [|c a IH]; intros [|d b]; try done.
  cbn. intros [= Hlen] [= -> H]. f_equal. by apply IH.
Qed.

(** X7: [formatObjectName] is injective: two type names never share a
    binding name, so declarations are merged only when the type names are
    equal. *)
Theorem formatObjectName_inj a b :
  formatObjectName a = formatObjectName b → a = b.
Proof.
  intros H.
  assert (String.length a = String.length b) as Hlen.
  { apply (f_equal String.length) in H.
    rewrite !length_formatObjectName in H. lia. }
  unfold formatObjectName in H. cbn in H. injection H as H.
  by eapply append_inj_length.
Qed.

Lemma formatObjectName_inj_witness :
  formatObjectName "User" = "_User__resU" ∧ "User" = "User".
Proof.
  split; [reflexivity|]. apply (formatObjectName_inj "User" "User").
  reflexivity.
Defined.

(** ** Merging declarations *)

Lemma mergeDeclaration_names l name ps e d :
  map objectName (mergeDeclaration l name ps e d)
  = if bool_decide (name ∈ map objectName l) then map objectName l
    else map objectName l ++ [name].
Proof.
  induction l as [|item rest IH]; cbn [mergeDeclaration map].
  - by rewrite bool_decide_eq_false_2 by apply not_elem_of_nil.
  - destruct (String.eqb (objectName item) name) eqn:E.
    + apply String.eqb_eq in E.
      by rewrite bool_decide_eq_true_2 by (rewrite E; left).
    + apply String.eqb_neq in E. cbn [map]. rewrite IH.
      case_bool_decide as Hin.
      * by rewrite bool_decide_eq_true_2 by by right.
      * rewrite bool_decide_eq_false_2; [done|].
        intros [?|?]%elem_of_cons; [by apply E|done].
Qed.

Lemma mergeDeclaration_NoDup l name ps e d :
  NoDup (map objectName l) →
  NoDup (map objectName (mergeDeclaration l name ps e d)).
Proof.
  intros Hnd. rewrite mergeDeclaration_names. case_bool_decide as Hin; [done|].
  apply NoDup_app. split; [done|]. split; [|apply NoDup_singleton].
  by intros x Hx ->%list_elem_of_singleton.
Qed.

Lemma mergeDeclaration_name_in l name ps e d :
  name ∈ map objectName (mergeDeclaration l name ps e d).
Proof.
  rewrite mergeDeclaration_names. case_bool_decide; [done|].
  apply elem_of_app. right. by left.
Qed.

Lemma mergeDeclaration_names_grow l name ps e d x :
  x ∈ map objectName l → x ∈ map objectName (mergeDeclaration l name ps e d).
Proof.
  intros Hx. rewrite mergeDeclaration_names. case_bool_decide; [done|].
  apply elem_of_app. by left.
Qed.

(** X8: merging by name is an update of the declaration found under that
    name: its properties get the new ones appended and it keeps its own
    export flag and kind; a name not yet present is added with the given
    flag and kind; the declarations of other names are not touched. *)
Theorem mergeDeclaration_find l name ps e d :
  findInterface name (mergeDeclaration l name ps e d)
  = Some match findInterface name l with
         | Some item =>
             Interface (objectName item) (props item ++ ps) (isExport item)
                       (_declarationType item)
         | None => Interface name ps e d
         end
  ∧ (∀ name', name' ≠ name →
       findInterface name' (mergeDeclaration l name ps e d)
       = findInterface name' l).
Proof.
  split.
  - induction l as [|item rest IH]; cbn [mergeDeclaration findInterface].
    + cbn. by rewrite String.eqb_refl.
    + destruct (String.eqb (objectName item) name) eqn:E;
        cbn [findInterface objectName]; by rewrite E.
  - intros name' Hne.
    induction l as [|item rest IH]; cbn [mergeDeclaration findInterface].
    + cbn. destruct (String.eqb name name') eqn:E; [|done].
      apply String.eqb_eq in E. congruence.
    + destruct (String.eqb (objectName item) name) eqn:E;
        cbn [findInterface objectName].
      * apply String.eqb_eq in E.
        destruct (String.eqb (objectName item) name') eqn:E'; [|done].
        apply String.eqb_eq in E'. congruence.
      * by rewrite IH.
Qed.

Lemma mergeDeclaration_find_witness :
  let l := [Interface "_A__A" [Property "x" [ParsedBase StringKeyword false] false]
                      true InterfaceDeclaration;
            Interface "_B__B" [] false TypeLiteralDeclaration] in
  findInterface "_B__B"
    (mergeDeclaration l "_A__A" [Property "y" [ParsedBase NumberKeyword false] false]
                      false TypeAliasDeclaration)
  = Some (Interface "_B__B" [] false TypeLiteralDeclaration).
Proof.
  intros l.
  apply (proj2 (mergeDeclaration_find l "_A__A"
                  [Property "y" [ParsedBase NumberKeyword false] false]
                  false TypeAliasDeclaration) "_B__B").
  discriminate.
Defined.

Lemma parseStatement_names statement acc :
  let acc' :=
    (match statement with
     | InterfaceDeclarationNode name exported members =>
         parseInterfaceNode acc name exported members
     | TypeAliasDeclarationNode name exported type =>
         parsedTypeLiteralNode acc name exported type
     | OtherStatement => (acc, [])
     end).1 in
  (NoDup (map objectName acc) → NoDup (map objectName acc'))
  ∧ (∀ x, x ∈ map objectName acc → x ∈ map objectName acc')
  ∧ (∀ name, declaredName statement = Some name →
       formatObjectName name ∈ map objectName acc').
Proof.
  destruct statement as [name e members|name e type|]; cbn [declaredName].
  - unfold parseInterfaceNode. destruct (parseMembers members) as [ps w].
    cbn [fst]. split; [apply mergeDeclaration_NoDup|].
    split; [intros x; apply mergeDeclaration_names_grow|].
    intros ? [= <-]. apply mergeDeclaration_name_in.
  - unfold parsedTypeLiteralNode.
    destruct (match type with
              | TypeLiteralNode members => _
              | _ => _
              end) as [[ps d] w].
    cbn [fst]. split; [apply mergeDeclaration_NoDup|].
    split; [intros x; apply mergeDeclaration_names_grow|].
    intros ? [= <-]. apply mergeDeclaration_name_in.
  - cbn. by repeat split.
Qed.

Lemma parseNode_names statements acc :
  (NoDup (map objectName acc) →
   NoDup (map objectName (parseNode statements acc).1))
  ∧ (∀ x, x ∈ map objectName acc →
       x ∈ map objectName (parseNode statements acc).1)
  ∧ (∀ statement name,
       statement ∈ statements → declaredName statement = Some name →
       formatObjectName name ∈ map objectName (parseNode statements acc).1).
Proof.
  revert acc. induction statements as [|statement rest IH]; intros acc.
  { cbn. split; [done|]. split; [done|]. by intros ?? ?%elem_of_nil. }
  cbn [parseNode].
  pose proof (parseStatement_names statement acc) as Hstep. cbn zeta in Hstep.
  destruct (match statement with
            | InterfaceDeclarationNode name exported members => _
            | _ => _
            end) as [acc' w].
  cbn [fst] in Hstep. destruct Hstep as (Hnd & Hgrow & Hnew).
  destruct (IH acc') as (IHnd & IHgrow & IHnew).
  destruct (parseNode rest acc') as [final w'] eqn:E. cbn [fst] in *.
  split; [auto|]. split; [auto|].
  intros st name [->|Hin]%elem_of_cons Hname; [|by eapply IHnew].
  apply IHgrow. by apply Hnew.
Qed.

(** X9: after parsing, the declarations have pairwise distinct names, and
    every interface or type-alias statement of the source has a declaration
    under its binding name, whatever warnings its members raised. *)
Theorem parseNode_declarations statements :
  NoDup (map objectName (parseNode statements []).1)
  ∧ (∀ statement name,
       statement ∈ statements → declaredName statement = Some name →
       formatObjectName name ∈ map objectName (parseNode statements []).1).
Proof.
  destruct (parseNode_names statements []) as (Hnd & _ & Hnew).
  split; [|done]. apply Hnd. constructor.
Qed.

Lemma parseNode_declarations_witness :
  formatObjectName "Cart" ∈ map objectName (parseNode srcCart []).1.
Proof.
  apply (proj2 (parseNode_declarations srcCart)
           (InterfaceDeclarationNode "Cart" false
              [PropertySignature "items" false
                 (Some (TypeReferenceNode "Promise<string>"));
               PropertySignature "total" false
                 (Some (KeywordTypeNode NumberKeyword))])).
  - left.
  - reflexivity.
Defined.

(** ** Unions and arrays *)

Lemma parseType_union types :
  parseType (UnionTypeNode types) = createUnionAttr types.
Proof. induction types as [|t rest IH]; [done|]. cbn in *. by rewrite IH. Qed.

Lemma createUnionAttr_app ts1 ts2 :
  createUnionAttr (ts1 ++ ts2)
  = ((createUnionAttr ts1).1 ++ (createUnionAttr ts2).1,
     (createUnionAttr ts1).2 ++ (createUnionAttr ts2).2).
Proof.
  induction ts1 as [|t ts1 IH]; cbn [app createUnionAttr].
  - by destruct (createUnionAttr ts2).
  - rewrite IH. destruct (parseType t) as [a w].
    destruct (createUnionAttr ts1) as [a1 w1].
    destruct (createUnionAttr ts2) as [a2 w2]. cbn [fst snd].
    by rewrite !app_assoc.
Qed.


Lemma setIsArray_idemp a : setIsArray (setIsArray a) = setIsArray a.
Proof. by destruct a. Qed.

Lemma parseType_array elementType :
  parseType (ArrayTypeNode elementType)
  = (map setIsArray (parseType elementType).1, (parseType elementType).2).
Proof. cbn. by destruct (parseType elementType). Qed.

(** X11: every alternative of an array type is marked as an array, and the
    nesting of arrays is lost: [T[][]] is parsed as [T[]]. *)
Theorem array_type_alternatives elementType :
  Forall (λ a, parsedIsArray a = true) (parseType (ArrayTypeNode elementType)).1
  ∧ parseType (ArrayTypeNode (ArrayTypeNode elementType))
    = parseType (ArrayTypeNode elementType).
Proof.
  rewrite !parseType_array. cbn [fst snd]. split.
  - apply Forall_forall. intros a (b & -> & _)%list_elem_of_fmap.
    by destruct b.
  - f_equal. rewrite <-list_fmap_compose. apply list_fmap_ext.
    intros ? a _. apply setIsArray_idemp.
Qed.

(** ** Unsupported unions *)

Lemma createUnionAttr_generic branches :
  createUnionAttr (map (λ b, TypeReferenceNode (genericText b.1 b.2)) branches)
  = (map (λ _, ParseError false) branches,
     map (λ b, GenericNotSupported (genericText b.1 b.2)) branches).
Proof.
  induction branches as [|b rest IH]; [done|].
  cbn [map createUnionAttr parseType]. rewrite createTypeRefAttr_generic, IH.
  done.
Qed.

Lemma filter_ParseError {A} (l : list A) :
  filter (λ a, isParseError a = false) (map (λ _, ParseError false) l) = [].
Proof.
  induction l as [|x l IH]; [done|]. cbn [map].
  by rewrite filter_cons_False.
Qed.

(** X12: a type alias whose union has only type references with type
    arguments is still declared, as a literal-union declaration with no
    property, one warning per branch; guarding against that declaration
    throws a [TypeError] for every target. *)
Theorem unsupported_union_alias name exported branches fuel env target visited :
  build [TypeAliasDeclarationNode name exported (genericUnion branches)]
  = (Returned (<[formatObjectName name :=
                   Schema [] (Some TypeAliasDeclaration)]> ∅),
     map (λ b, GenericNotSupported (genericText b.1 b.2)) branches)
  ∧ applySchemaGuard (S fuel) env target
      (Schema [] (Some TypeAliasDeclaration)) false visited
    = Thrown TypeError.
Proof.
  split; [|done].
  unfold build, genericUnion. cbn [parseNode].
  unfold parsedTypeLiteralNode, parseTypeAliasNode, parseTypeNode.
  rewrite parseType_union, createUnionAttr_generic, filter_ParseError.
  cbn. by rewrite !app_nil_r.
Qed.

(** ** Object literals *)

Lemma findProperty_defineProperty k p acc :
  findProperty k (defineProperty p acc)
  = if String.eqb k (key p) then Some p else findProperty k acc.
Proof.
  induction acc as [|q rest IH]; cbn [defineProperty findProperty]; [done|].
  destruct (String.eqb (key p) (key q)) eqn:E; cbn [findProperty].
  - apply String.eqb_eq in E. rewrite <-E. by destruct (String.eqb k (key p)).
  - rewrite IH. destruct (String.eqb k (key q)) eqn:E'; [|done].
    apply String.eqb_eq in E' as ->. by rewrite String.eqb_sym, E.
Qed.

(** X13: in the object an object literal evaluates to, a key holds the last
    property written under it. *)
Theorem objectLiteral_last_wins k ps :
  findProperty k (objectLiteral ps) = findProperty k (rev ps).
Proof.
  unfold objectLiteral.
  assert (∀ acc,
            findProperty k (fold_left (λ acc p, defineProperty p acc) ps acc)
            = match findProperty k (rev ps) with
              | Some p => Some p
              | None => findProperty k acc
              end) as H.
  { induction ps as [|p ps IH]; intros acc; [done|].
    cbn [fold_left rev]. rewrite IH, findProperty_defineProperty.
    assert (∀ l1 l2, findProperty k (l1 ++ l2)
                     = match findProperty k l1 with
                       | Some q => Some q
                       | None => findProperty k l2
                       end) as Happ.
    { intros l1 l2. induction l1 as [|q l1 IHl]; [done|].
      cbn [app findProperty]. by destruct (String.eqb k (key q)). }
    rewrite Happ. cbn [findProperty].
    by destruct (findProperty k (rev ps)), (String.eqb k (key p)). }
  rewrite H. by destruct (findProperty k (rev ps)).
Qed.

(** ** The emitted bindings *)

Lemma generateExportCode_lookup l env :
  generateExportCode l = Returned env →
  (∀ name, is_Some (env !! name) ↔ name ∈ map objectName l)
  ∧ (∀ name s, env !! name = Some s → NoDup (map key (entries s))).
Proof.
  revert env. induction l as [|intf rest IH]; intros env; cbn [generateExportCode].
  - intros [= <-]. split.
    + intros name. rewrite lookup_empty. split; [by intros [? ?]|].
      by intros ?%elem_of_nil.
    + intros name s. by rewrite lookup_empty.
  - destruct (propsToString (props intf)) as [body| |]; cbn [mbind outcome_bind];
      [|done..].
    destruct (generateExportCode rest) as [bindings| |]; cbn [mbind outcome_bind];
      [|done..].
    intros [= <-]. destruct (IH bindings eq_refl) as [IHdom IHkeys]. split.
    + intros name. cbn [map]. rewrite elem_of_cons, <-IHdom.
      destruct (decide (objectName intf = name)) as [->|Hne].
      * rewrite lookup_insert_eq. split; [by left | by eauto].
      * rewrite lookup_insert_ne by done. split; [by right|].
        by intros [?|?].
    + intros name s.
      destruct (decide (objectName intf = name)) as [->|Hne].
      * rewrite lookup_insert_eq. intros [= <-]. apply objectLiteral_NoDup.
      * rewrite lookup_insert_ne by done. apply IHkeys.
Qed.



(** * [groupValuesByMappedKey] *)

Lemma mapGet_mapSet_eq {A} k (v : A) m : mapGet k (mapSet k v m) = Some v.
Proof.
  induction m as [|[k' v'] m IH]; cbn [mapSet mapGet].
  - by rewrite String.eqb_refl.
  - destruct (String.eqb k k') eqn:E; cbn [mapGet]; [by rewrite String.eqb_refl|].
    by rewrite E.
Qed.

Lemma mapGet_mapSet_ne {A} k k' (v : A) m :
  k ≠ k' → mapGet k (mapSet k' v m) = mapGet k m.
Proof.
  intros Hne. induction m as [|[k'' v''] m IH]; cbn [mapSet mapGet].
  - by apply String.eqb_neq in Hne as ->.
  - destruct (String.eqb k' k'') eqn:E; cbn [mapGet].
    + apply String.eqb_eq in E as <-. by apply String.eqb_neq in Hne as ->.
    + by rewrite IH.
Qed.

Lemma groupValues_fold {V} (valueMap : list (string * V)) keyMap groupKey acc :
  mapGet groupKey
    (fold_left
       (λ groupedMap '(key, value),
          match mapGet key keyMap with
          | Some groupKey =>
              let existing := default [] (mapGet groupKey groupedMap) in
              mapSet groupKey (existing ++ [value]) groupedMap
          | None => groupedMap
          end)
       valueMap acc)
  = match valuesOfGroup valueMap keyMap groupKey with
    | [] => mapGet groupKey acc
    | vs => Some (default [] (mapGet groupKey acc) ++ vs)
    end.
Proof.
  revert acc. induction valueMap as [|[key value] rest IH]; intros acc; [done|].
  cbn [fold_left valuesOfGroup]. rewrite IH.
  destruct (mapGet key keyMap) as [g|] eqn:Hg.
  - destruct (decide (g = groupKey)) as [->|Hne].
    + rewrite bool_decide_eq_true_2 by done. cbn zeta.
      rewrite mapGet_mapSet_eq.
      destruct (valuesOfGroup rest keyMap groupKey) as [|v vs]; [done|].
      simpl. by rewrite <-app_assoc.
    + rewrite bool_decide_eq_false_2 by congruence. cbn zeta.
      by rewrite mapGet_mapSet_ne.
  - by rewrite bool_decide_eq_false_2.
Qed.

(** X15: the group of a key holds exactly the values of [valueMap] whose key
    is mapped to it by [keyMap], in the order of [valueMap]; a value whose
    key [keyMap] lacks is in no group, and no group is empty. *)
Theorem groupValuesByMappedKey_get {V} (valueMap : list (string * V))
    keyMap groupKey :
  mapGet groupKey (groupValuesByMappedKey valueMap keyMap)
  = match valuesOfGroup valueMap keyMap groupKey with
    | [] => None
    | vs => Some vs
    end.
Proof. unfold groupValuesByMappedKey. by rewrite groupValues_fold. Qed.

(** The example of the documentation comment. *)
Lemma groupValuesByMappedKey_example :
  groupValuesByMappedKey [("a", 1); ("b", 2); ("c", 3); ("d", 4)]
                         [("a", "X"); ("b", "Y"); ("c", "X")]
  = [("X", [1; 3]); ("Y", [2])].
Proof. reflexivity. Qed.

(** * A present value on which the guard does not return *)

Section SelfUnion.
Context (env : gmap string GuarderType) (name k : string).
Hypothesis env_name : env !! name = Some (selfUnion name k).

Lemma selfUnion_read :
  readAttribute env
    (Property k [TypeReference name false; TypeReference name false] false)
  = Returned [TypeReference name false; TypeReference name false].
Proof.
  unfold readAttribute. cbn [attribute forallb resolves].
  rewrite env_name. by rewrite bool_decide_eq_true_2 by eauto.
Qed.

(** One step on a target that has the key: the first alternative is applied
    to the value, the second one to what the first one left. *)
Lemma selfUnion_present fuel v ps visited :
  applySchemaGuard (S fuel) env (VObj ((k, v) :: ps)) (selfUnion name k)
                   false visited
  = out1 ← applySchemaGuard fuel env v (selfUnion name k) false ∅;
    out2 ← applySchemaGuard fuel env (targetAfter out1) (selfUnion name k)
             false ∅;
    Returned (GuardResult (VObj ((k, targetAfter out2) :: ps))
                          (VObj ((k, targetAfter out2) :: ps)) visited).
Proof.
  rewrite applySchemaGuard_S. unfold applySchemaGuardBody.
  cbn [selfUnion isTypeAlias declarationType entries guardEntries key].
  unfold hasKey, getField. cbn [ownProps lookupProp].
  rewrite String.eqb_refl. rewrite bool_decide_eq_true_2 by eauto.
  cbn [mbind outcome_bind default].
  unfold verifyAndFillField. rewrite selfUnion_read. cbn [mbind outcome_bind].
  cbn [verifyWalk]. unfold checkTypeReference, resolve. rewrite env_name.
  cbn [mbind outcome_bind]. unfold checkSchema, id.
  destruct (applySchemaGuard fuel env v _ false ∅) as [out1| |];
    cbn [mbind outcome_bind isVerify checked]; [|done..].
  destruct (applySchemaGuard fuel env (targetAfter out1) _ false ∅)
    as [out2| |]; cbn [mbind outcome_bind isVerify checked]; [|done..].
  cbn [setField assignProp]. by rewrite String.eqb_refl.
Qed.

Lemma selfUnion_fill :
  applySchemaGuard 2 env (VObj []) (selfUnion name k) false ∅
  = Returned (GuardResult (VObj [(k, VObj [(k, VObj [])])])
                          (VObj [(k, VObj [(k, VObj [])])])
                          (∅ ∪ {[name]})).
Proof.
  rewrite !applySchemaGuard_S. unfold applySchemaGuardBody at 1.
  cbn [selfUnion isTypeAlias declarationType entries guardEntries key].
  unfold hasKey at 1. cbn [ownProps lookupProp].
  rewrite bool_decide_eq_false_2 by by intros [? ?].
  cbn [mbind outcome_bind]. rewrite selfUnion_read. cbn [mbind outcome_bind last].
  cbn [visitedHas]. rewrite bool_decide_eq_false_2 by apply not_elem_of_empty.
  unfold autoFillValue. rewrite selfUnion_read.
  cbn [mbind outcome_bind last attrIsArray visitedAdd].
  unfold fillTypeReference, resolve. rewrite env_name. cbn [mbind outcome_bind].
  unfold applySchemaGuardBody.
  cbn [selfUnion isTypeAlias declarationType entries guardEntries key].
  unfold hasKey. cbn [ownProps lookupProp].
  rewrite bool_decide_eq_false_2 by by intros [? ?].
  cbn [mbind outcome_bind]. rewrite selfUnion_read. cbn [mbind outcome_bind last].
  cbn [visitedHas].
  rewrite bool_decide_eq_true_2
    by (apply elem_of_union; right; by apply elem_of_singleton).
  reflexivity.
Qed.

Lemma selfUnion_diverges_present fuel :
  ∀ ps visited,
    applySchemaGuard fuel env (VObj ((k, VObj []) :: ps)) (selfUnion name k)
                     false visited
    = OutOfFuel.
Proof.
  induction fuel as [fuel IH] using lt_wf_ind. intros ps visited.
  destruct fuel as [|fuel]; [done|].
  rewrite selfUnion_present.
  destruct (applySchemaGuard_fuel_le fuel (fuel + 2) env (VObj [])
              (selfUnion name k) false ∅) as [->| ->]; [lia|done|].
  rewrite (applySchemaGuard_more_fuel 2 (fuel + 2) _ _ _ _ _ _ ltac:(lia)
             selfUnion_fill).
  cbn [mbind outcome_bind targetAfter].
  destruct fuel as [|fuel]; [done|].
  rewrite selfUnion_present. by rewrite IH by lia.
Qed.
End SelfUnion.

(** X16: with a property whose two alternatives both reference its own
    declaration ([x: A | A]), the guard does not return on a target that has
    that property set to an empty object: no amount of fuel is enough. *)
Theorem self_union_present_value_diverges fuel env name k ps visited :
  env !! name = Some (selfUnion name k) →
  applySchemaGuard fuel env (VObj ((k, VObj []) :: ps)) (selfUnion name k)
                   false visited
  = OutOfFuel.
Proof. intros Henv. by apply selfUnion_diverges_present. Qed.

Lemma self_union_present_value_diverges_witness :
  guardCall 50 (<["_A__A" := selfUnion "_A__A" "x"]> ∅)
            (VObj [("x", VObj [])]) (selfUnion "_A__A" "x") false
  = OutOfFuel.
Proof.
  unfold guardCall.
  rewrite (self_union_present_value_diverges 50
             (<["_A__A" := selfUnion "_A__A" "x"]> ∅) "_A__A" "x" [] ∅);
    reflexivity.
Defined.

(** * Termination on arbitrary targets *)

Lemma finishes_const {A} (o : outcome A) : o ≠ OutOfFuel → finishes (λ _, o).
Proof. intros Ho. by exists 0%nat, o. Qed.

Lemma finishes_bind {A B} (c : nat → outcome A) (k : A → nat → outcome B) :
  finishes c →
  (∀ a fuel, c fuel = Returned a → finishes (k a)) →
  finishes (λ fuel, c fuel ≫= λ a, k a fuel).
Proof.
  intros (fuel1 & o1 & Ho1 & Hc) Hk.
  destruct o1 as [a|e|]; [| |done].
  - destruct (Hk a fuel1) as (fuel2 & o2 & Ho2 & Hk2); [by apply Hc|].
    exists (fuel1 `max` fuel2)%nat, o2. split; [done|].
    intros fuel' Hle. rewrite Hc by lia. cbn [mbind outcome_bind].
    apply Hk2. lia.
  - exists fuel1, (Thrown e). split; [done|].
    intros fuel' Hle. by rewrite Hc.
Qed.

Lemma finishes_ext {A} (c c' : nat → outcome A) :
  (∀ fuel, c fuel = c' fuel) → finishes c → finishes c'.
Proof.
  intros Heq (fuel & o & Ho & Hc). exists fuel, o. split; [done|].
  intros fuel' Hle. rewrite <-Heq. by apply Hc.
Qed.

Lemma vsize_lookupProp k ps v :
  lookupProp k ps = Some v →
  (vsize v ≤ list_sum (map (λ kv, vsize kv.2) ps))%nat.
Proof.
  induction ps as [|[k' v'] ps IH]; [done|].
  cbn [lookupProp]. change (list_sum (map (λ kv, vsize kv.2) ((k', v') :: ps)))
    with (vsize v' + list_sum (map (λ kv, vsize kv.2) ps))%nat.
  destruct (String.eqb k k').
  - intros [= ->]. lia.
  - intros H%IH. lia.
Qed.

Lemma vsize_getField target k ps :
  ownProps target = Some ps → (vsize (getField target k) < vsize target)%nat.
Proof.
  intros Hps. unfold getField. rewrite Hps.
  destruct (lookupProp k ps) as [v|] eqn:Hv; cbn [default].
  - apply vsize_lookupProp in Hv. destruct target; simplify_eq/=; lia.
  - destruct target; simplify_eq/=; lia.
Qed.

Lemma vsize_item items ps item :
  item ∈ items → (vsize item < vsize (VArr items ps))%nat.
Proof.
  intros Hin. cbn [vsize].
  assert (vsize item ≤ list_sum (map vsize items))%nat; [|lia].
  induction items as [|x items IH]; [by apply elem_of_nil in Hin|].
  change (list_sum (map vsize (x :: items)))
    with (vsize x + list_sum (map vsize items))%nat.
  apply elem_of_cons in Hin as [->|Hin]; [lia|].
  specialize (IH Hin). lia.
Qed.

Lemma singleAttr_TypeLiteral fields isArray :
  singleAttr (TypeLiteral fields isArray) = singleProps fields.
Proof. reflexivity. Qed.

(** A walk over primitive and literal alternatives makes no call. *)
Lemma verifyWalk_scalars env attrs target flag :
  forallb scalarKind attrs = true →
  ∃ r, ∀ guard, verifyWalk env guard attrs target flag = Returned r.
Proof.
  induction attrs as [|a rest IH]; cbn [forallb verifyWalk]; [by eexists|].
  intros [Ha Hrest]%andb_true_iff. destruct (IH Hrest) as [r Hr].
  destruct a as [kw arr|lit arr| |]; try done.
  - destruct (isVerify (checkBaseType target arr kw)); eauto.
  - destruct (isVerify (checkAliasType target arr lit)); eauto.
Qed.

Section Terminates.
Context (env : gmap string GuarderType).
Hypothesis env_wf : wfEnv env.
Hypothesis env_single : singleEnv env.
Context (bound : nat).
(** What the induction on the size of the target provides. *)
Hypothesis smaller : ∀ v s visited,
  (vsize v < bound)%nat →
  wfSchema env s = true → singleProps (entries s) = true →
  finishes (λ fuel, applySchemaGuard fuel env v s false visited).

Lemma fill_finishes s visited :
  wfSchema env s = true →
  finishes (λ fuel, applySchemaGuard fuel env (VObj []) s false visited).
Proof.
  intros Hs. destruct (fill_terminates env env_wf s visited Hs)
    as (fuel & out & Hrun).
  by exists fuel, (Returned out).
Qed.

Lemma wfSchema_inline fields :
  wfProps env fields = true → wfSchema env (inlineSchema fields) = true.
Proof. intros H. unfold wfSchema. cbn. by rewrite H. Qed.

Lemma autoFillValue_finishes p visited :
  wfProp env p = true →
  finishes (λ fuel, autoFillValue env (applySchemaGuard fuel env) p visited).
Proof.
  intros Hp. destruct (wfProp_read _ _ Hp) as (Hread & a & Hlast & Ha & _).
  unfold autoFillValue. rewrite Hread. cbn [mbind outcome_bind]. rewrite Hlast.
  destruct (attrIsArray a) eqn:Harr; [by apply finishes_const|].
  destruct a as [kw arr|lit arr|fields arr|name arr]; cbn [attrIsArray] in Harr;
    subst arr.
  - by apply finishes_const.
  - by apply finishes_const.
  - unfold fillTypeLiteral.
    apply (finishes_bind
             (λ fuel, applySchemaGuard fuel env (VObj []) (inlineSchema fields)
                        false visited)
             (λ out _, Returned (targetAfter out, visitedAfter out))).
    + apply fill_finishes. by apply wfSchema_inline.
    + intros. by apply finishes_const.
  - unfold fillTypeReference, resolve.
    cbn [wfAttr] in Ha. apply bool_decide_eq_true in Ha as [s Hs].
    rewrite Hs. cbn [mbind outcome_bind].
    apply (finishes_bind
             (λ fuel, applySchemaGuard fuel env (VObj []) s false visited)
             (λ out _, Returned (result out, visitedAfter out))).
    + apply fill_finishes. by apply env_wf in Hs.
    + intros. by apply finishes_const.
Qed.

Lemma guardEach_finishes items s :
  (∀ item, item ∈ items → (vsize item < bound)%nat) →
  wfSchema env s = true → singleProps (entries s) = true →
  finishes (λ fuel, guardEach (applySchemaGuard fuel env) items s).
Proof.
  intros Hitems Hwf Hsingle.
  induction items as [|item rest IH]; cbn [guardEach].
  { by apply finishes_const. }
  apply (finishes_bind
           (λ fuel, applySchemaGuard fuel env item s false ∅)
           (λ out fuel,
              guardEach (applySchemaGuard fuel env) rest s
              ≫= λ rest', Returned (targetAfter out :: rest'))).
  - apply smaller; [|done..]. apply Hitems. by left.
  - intros out _ _.
    apply (finishes_bind
             (λ fuel, guardEach (applySchemaGuard fuel env) rest s)
             (λ rest' _, Returned (targetAfter out :: rest'))).
    + apply IH. intros ? ?. apply Hitems. by right.
    + intros. by apply finishes_const.
Qed.

Lemma checkSchema_finishes v isArray s :
  (vsize v < bound)%nat →
  wfSchema env s = true → singleProps (entries s) = true →
  finishes (λ fuel, checkSchema (applySchemaGuard fuel env) v isArray s).
Proof.
  intros Hv Hwf Hsingle. unfold checkSchema.
  assert (finishes (λ fuel,
            applySchemaGuard fuel env v s false ∅
            ≫= λ out, Returned (CheckRes true (targetAfter out)))) as Helse.
  { apply (finishes_bind
             (λ fuel, applySchemaGuard fuel env v s false ∅)
             (λ out _, Returned (CheckRes true (targetAfter out)))).
    - by apply smaller.
    - intros. by apply finishes_const. }
  destruct isArray, v as [| | | | |items ps|]; try exact Helse.
  apply (finishes_bind
           (λ fuel, guardEach (applySchemaGuard fuel env) items s)
           (λ items' _, Returned (CheckRes true (VArr items' ps)))).
  - apply guardEach_finishes; [|done..].
    intros item Hitem. etrans; [|exact Hv]. by apply vsize_item.
  - intros. by apply finishes_const.
Qed.

Lemma verifyWalk_finishes attrs target flag :
  (vsize target < bound)%nat →
  forallb (wfAttr env) attrs = true →
  atMostOneObject attrs = true →
  forallb singleAttr attrs = true →
  finishes (λ fuel, verifyWalk env (applySchemaGuard fuel env) attrs target flag).
Proof.
  intros Hv. revert flag.
  induction attrs as [|a rest IH]; intros flag Hwf Hone Hsingle;
    cbn [verifyWalk].
  { by apply finishes_const. }
  cbn [forallb atMostOneObject] in *.
  apply andb_true_iff in Hwf as [Ha Hrest].
  apply andb_true_iff in Hsingle as [Hsa Hsrest].
  destruct a as [kw arr|lit arr|fields arr|name arr]; cbn [scalarKind] in Hone.
  - destruct (isVerify (checkBaseType target arr kw));
      [by apply finishes_const | by apply IH].
  - destruct (isVerify (checkAliasType target arr lit));
      [by apply finishes_const | by apply IH].
  - unfold checkTypeLiteral.
    apply (finishes_bind
             (λ fuel, checkSchema (applySchemaGuard fuel env) target arr
                        (inlineSchema fields))
             (λ c fuel,
                if isVerify c
                then verifyWalk env (applySchemaGuard fuel env) rest (checked c) true
                else verifyWalk env (applySchemaGuard fuel env) rest target flag)).
    + rewrite wfAttr_TypeLiteral in Ha. rewrite singleAttr_TypeLiteral in Hsa.
      apply checkSchema_finishes; [done|by apply wfSchema_inline|done].
    + intros c _ _.
      destruct (verifyWalk_scalars env rest (checked c) true Hone) as [r1 Hr1].
      destruct (verifyWalk_scalars env rest target flag Hone) as [r2 Hr2].
      destruct (isVerify c).
      * eapply finishes_ext; [intros fuel; symmetry; apply Hr1|].
        by apply finishes_const.
      * eapply finishes_ext; [intros fuel; symmetry; apply Hr2|].
        by apply finishes_const.
  - unfold checkTypeReference, resolve.
    cbn [wfAttr] in Ha. apply bool_decide_eq_true in Ha as [s Hs].
    rewrite Hs. cbn [mbind outcome_bind].
    apply (finishes_bind
             (λ fuel, checkSchema (applySchemaGuard fuel env) target arr s)
             (λ c fuel,
                if isVerify c
                then verifyWalk env (applySchemaGuard fuel env) rest (checked c) true
                else verifyWalk env (applySchemaGuard fuel env) rest target flag)).
    + apply checkSchema_finishes; [done|by apply env_wf in Hs|].
      by apply env_single in Hs.
    + intros c _ _.
      destruct (verifyWalk_scalars env rest (checked c) true Hone) as [r1 Hr1].
      destruct (verifyWalk_scalars env rest target flag Hone) as [r2 Hr2].
      destruct (isVerify c).
      * eapply finishes_ext; [intros fuel; symmetry; apply Hr1|].
        by apply finishes_const.
      * eapply finishes_ext; [intros fuel; symmetry; apply Hr2|].
        by apply finishes_const.
Qed.

Lemma verifyAndFillField_finishes target p visited :
  (vsize target < bound)%nat →
  wfProp env p = true → singleProp p = true →
  finishes (λ fuel,
    verifyAndFillField env (applySchemaGuard fuel env) target p visited).
Proof.
  intros Hv Hp [Hone Hsingle]%andb_true_iff.
  destruct (wfProp_read _ _ Hp) as (Hread & _).
  unfold verifyAndFillField. rewrite Hread. cbn [mbind outcome_bind].
  apply (finishes_bind
           (λ fuel, verifyWalk env (applySchemaGuard fuel env) (attribute p)
                      target false)
           (λ r fuel,
              let '(newParam, verifyFlag) := r in
              if verifyFlag : bool then Returned (newParam, visited)
              else autoFillValue env (applySchemaGuard fuel env) p visited)).
  - apply verifyWalk_finishes; [done| |done..].
    unfold wfProp in Hp. by destruct (attribute p).
  - intros [newParam []] _ _; [by apply finishes_const|].
    by apply autoFillValue_finishes.
Qed.

Lemma guardEntries_finishes props target visited :
  wfProps env props = true → singleProps props = true →
  (∀ p, p ∈ props → (vsize (getField target (key p)) < bound)%nat) →
  finishes (λ fuel,
    guardEntries env (applySchemaGuard fuel env) props target visited).
Proof.
  revert target visited.
  induction props as [|p rest IH]; intros target visited Hwf Hsingle Hsub;
    cbn [guardEntries].
  { by apply finishes_const. }
  apply wfProps_cons in Hwf as (Hkey & Hp & Hrest).
  cbn [singleProps forallb] in Hsingle.
  apply andb_true_iff in Hsingle as [Hsp Hsrest].
  assert (∀ v, ∀ q, q ∈ rest →
            (vsize (getField (setField target (key p) v) (key q)) < bound)%nat)
    as Hnext.
  { intros v q Hq. rewrite getField_setField_ne.
    - apply Hsub. by right.
    - intros Heq. apply Hkey. rewrite <-Heq. by apply list_elem_of_fmap_2. }
  unfold hasKey. destruct (ownProps target) as [ps|];
    cbn [mbind outcome_bind]; [|by apply finishes_const].
  destruct (bool_decide (is_Some (lookupProp (key p) ps))).
  - apply (finishes_bind
             (λ fuel, verifyAndFillField env (applySchemaGuard fuel env)
                        (getField target (key p)) p visited)
             (λ r fuel,
                let '(v, visited) := r in
                guardEntries env (applySchemaGuard fuel env) rest
                             (setField target (key p) v) visited)).
    + apply verifyAndFillField_finishes; [|done..]. apply Hsub. by left.
    + intros [v vis] _ _. apply IH; [done|exact Hsrest|apply Hnext].
  - destruct (wfProp_read _ _ Hp) as (Hread & a & Hlast & _).
    rewrite Hread. cbn [mbind outcome_bind]. rewrite Hlast.
    destruct (visitedHas visited a); [by apply finishes_const|].
    apply (finishes_bind
             (λ fuel, autoFillValue env (applySchemaGuard fuel env) p
                        (visitedAdd visited a))
             (λ r fuel,
                let '(v, visited) := r in
                guardEntries env (applySchemaGuard fuel env) rest
                             (setField target (key p) v) visited)).
    + by apply autoFillValue_finishes.
    + intros [v vis] _ _. apply IH; [done|exact Hsrest|apply Hnext].
Qed.
End Terminates.

Lemma finishes_shift {A} (c : nat → outcome A) :
  finishes (λ fuel, c (S fuel)) → finishes c.
Proof.
  intros (fuel & o & Ho & Hc). exists (S fuel), o. split; [done|].
  intros [|fuel'] Hle; [lia|]. apply Hc. lia.
Qed.

Lemma guard_finishes_bounded env bound :
  wfEnv env → singleEnv env →
  ∀ v s visited,
    (vsize v < bound)%nat →
    wfSchema env s = true → singleProps (entries s) = true →
    finishes (λ fuel, applySchemaGuard fuel env v s false visited).
Proof.
  intros Henv Hsingle. induction bound as [|bound IH]; [lia|].
  intros v s visited Hv Hwf Hs.
  apply finishes_shift.
  change (finishes (λ fuel,
            applySchemaGuardBody env (applySchemaGuard fuel env) v s false
                                 visited)).
  unfold applySchemaGuardBody.
  pose proof Hwf as [Hprops Halias]%andb_true_iff.
  destruct (isTypeAlias s).
  - destruct (entries s) as [|p rest]; [done|].
    apply wfProps_cons in Hprops as (_ & Hp & _).
    apply (finishes_bind
             (λ fuel, autoFillValue env (applySchemaGuard fuel env) p visited)
             (λ r _, let '(w, visited) := r in
                     Returned (GuardResult w v visited))).
    + by apply autoFillValue_finishes.
    + intros [w vis] _ _. by apply finishes_const.
  - destruct (ownProps v) as [ps|] eqn:Hps.
    + apply guardEntries_finishes with bound; [done..|].
      intros p _. pose proof (vsize_getField v (key p) ps Hps). lia.
    + destruct (entries s) as [|p rest]; cbn [guardEntries].
      * by apply finishes_const.
      * unfold hasKey. rewrite Hps. cbn [mbind outcome_bind].
        by apply finishes_const.
Qed.



(** * Arrays under the alternatives *)

Lemma guardEach_Forall2 guard items s items' :
  guardEach guard items s = Returned items' →
  Forall2 (λ item item',
             ∃ out, guard item s false ∅ = Returned out
                    ∧ item' = targetAfter out) items items'.
Proof.
  revert items'. induction items as [|item rest IH]; intros items';
    cbn [guardEach].
  - intros [= <-]. constructor.
  - destruct (guard item s false ∅) as [out| |] eqn:Hrun;
      cbn [mbind outcome_bind]; [|done..].
    destruct (guardEach guard rest s) as [rest'| |]; cbn [mbind outcome_bind];
      [|done..].
    intros [= <-]. constructor; [by exists out | by apply IH].
Qed.

(** X18: a present array under an array alternative of object kind is
    repaired element by element: the guard is run on every element with a
    fresh [visited], the array keeps its length, its order and its named
    properties, and the check reports success. *)
Theorem array_repaired_elementwise fuel env items ps s c :
  checkSchema (applySchemaGuard fuel env) (VArr items ps) true s = Returned c →
  isVerify c = true
  ∧ ∃ items',
      checked c = VArr items' ps
      ∧ length items' = length items
      ∧ Forall2 (λ item item',
                   ∃ out, applySchemaGuard fuel env item s false ∅ = Returned out
                          ∧ item' = targetAfter out) items items'.
Proof.
  unfold checkSchema.
  destruct (guardEach _ items s) as [items'| |] eqn:Hrun;
    cbn [mbind outcome_bind]; [|done..].
  intros [= <-]. split; [done|]. exists items'.
  apply guardEach_Forall2 in Hrun.
  split; [done|]. split; [|done]. symmetry. by eapply Forall2_length.
Qed.

Lemma array_repaired_elementwise_witness :
  checkSchema (applySchemaGuard 1 envUser)
              (VArr [VObj []; VObj [("id", VStr "a")]] []) true declHobby
  = Returned (CheckRes true
      (VArr [VObj [("id", VStr EmptyString)]; VObj [("id", VStr "a")]] []))
  ∧ length [VObj [("id", VStr EmptyString)]; VObj [("id", VStr "a")]] = 2%nat.
Proof.
  assert (checkSchema (applySchemaGuard 1 envUser)
            (VArr [VObj []; VObj [("id", VStr "a")]] []) true declHobby
          = Returned (CheckRes true
              (VArr [VObj [("id", VStr EmptyString)]; VObj [("id", VStr "a")]] [])))
    as Hrun by (vm_compute; reflexivity).
  split; [exact Hrun|].
  destruct (array_repaired_elementwise _ _ _ _ _ _ Hrun)
    as (_ & items' & Heq & Hlen & _).
  cbn [checked] in Heq. injection Heq as <-. exact Hlen.
Defined.

(** * When the emission throws *)

Lemma verdict_bind b1 b2 :
  (verdict b1 ≫= λ _, verdict b2) = verdict (b1 && b2).
Proof. by destruct b1, b2. Qed.

Lemma returned_verdict {A} (o : outcome A) b :
  status o = verdict b → returned o = b.
Proof. by destruct o as [?|[]|], b. Qed.

Lemma valuesToString_cons a l :
  status (valuesToString (a :: l))
  = status (valueToString a) ≫= λ _, status (valuesToString l).
Proof.
  cbn [valuesToString]. unfold status.
  destruct (valueToString a) as [?| |]; cbn [mbind outcome_bind]; [|done..].
  by destruct (valuesToString l).
Qed.

Lemma valuesToString_app l1 l2 :
  status (valuesToString (l1 ++ l2))
  = status (valuesToString l1) ≫= λ _, status (valuesToString l2).
Proof.
  induction l1 as [|a l1 IH].
  - unfold status. cbn. by destruct (valuesToString l2).
  - change ((a :: l1) ++ l2) with (a :: (l1 ++ l2)).
    rewrite !valuesToString_cons, IH.
    unfold status.
    by destruct (valueToString a), (valuesToString l1), (valuesToString l2).
Qed.

Lemma valueToString_literal ms b :
  valueToString (ParsedLiteral ms b)
  = fields ← membersToString ms; Returned (TypeLiteral (objectLiteral fields) b).
Proof.
reflexivity. Qed.

Lemma valueToString_setIsArray a :
  status (valueToString (setIsArray a)) = status (valueToString a).
Proof.
  destruct a as [| |ms b| |]; try done.
  cbn [setIsArray]. rewrite !valueToString_literal. unfold status.
  by destruct (membersToString ms).
Qed.

Lemma valuesToString_setIsArray l :
  status (valuesToString (map setIsArray l)) = status (valuesToString l).
Proof.
  induction l as [|a l IH]; [done|]. cbn [map].
  by rewrite !valuesToString_cons, valueToString_setIsArray, IH.
Qed.

Lemma filter_setIsArray l :
  filter (λ a, isParseError a = false) (map setIsArray l)
  = map setIsArray (filter (λ a, isParseError a = false) l).
Proof.
  induction l as [|a l IH]; [done|]. cbn [map].
  destruct a; cbn [setIsArray];
    rewrite ?filter_cons_True by done; rewrite ?filter_cons_False by done;
    cbn [map setIsArray]; by rewrite IH.
Qed.

Lemma parseType_members members :
  (parseType (TypeLiteralNode members)).1
  = [ParsedLiteral (map (λ m, (parsePropertyNode parseTypeNode m).1) members)
                   false].
Proof.
  cbn [parseType].
  match goal with
  | |- (let '(ms, w) := ?f members in _).1 = _ =>
      assert (∀ l, (f l).1 = map (λ m, (parsePropertyNode parseTypeNode m).1) l)
        as Heach
  end.
  { induction l as [|m l IH]; [done|].
    cbn [map]. rewrite <- IH.
    change (λ t : option TypeNode,
              match t with
              | Some t0 => parseType t0
              | None => let '(a, w) := createErrorAttr EmptyTypeNode in ([a], w)
              end) with parseTypeNode.
    destruct (parsePropertyNode parseTypeNode m) as [p w].
    match goal with |- (let '(ps, w') := ?r in _).1 = _ => by destruct r end. }
  specialize (Heach members).
  match goal with
  | |- (let '(ms, w) := ?r in _).1 = _ => destruct r as [ms w]
  end.
  cbn [fst] in *. by rewrite Heach.
Qed.

Lemma parseType_union_cons t rest :
  (parseType (UnionTypeNode (t :: rest))).1
  = (parseType t).1 ++ (parseType (UnionTypeNode rest)).1.
Proof.
  rewrite !parseType_union. cbn [createUnionAttr].
  by destruct (parseType t), (createUnionAttr rest).
Qed.

(** [hasValidAttribute] decides whether [parsePropertyNode] keeps the
    member. *)
Lemma hasValidAttribute_spec t :
  filter (λ a, isParseError a = false) (parseType t).1 = []
  ↔ hasValidAttribute t = false.
Proof.
  induction t as [kw|e IH|lit|types IH|text|members _|types|text]
    using TypeNode_nested_ind.
  - done.
  - rewrite parseType_array. cbn [fst hasValidAttribute].
    rewrite filter_setIsArray, <- IH.
    by destruct (filter _ (parseType e).1).
  - done.
  - induction IH as [|t rest Ht _ IHrest]; [done|].
    rewrite parseType_union_cons, filter_app.
    cbn [hasValidAttribute existsb] in *.
    rewrite orb_false_iff, <- Ht, <- IHrest. apply app_nil.
  - cbn [parseType hasValidAttribute]. unfold createTypeRefAttr.
    by destruct (includes text "<").
  - rewrite parseType_members. done.
  - done.
  - done.
Qed.

Lemma membersToString_cons p rest :
  status (membersToString (Some p :: rest))
  = status (valuesToString (attribute p)) ≫= λ _, status (membersToString rest).
Proof.
  cbn [membersToString]. unfold status.
  by destruct (valuesToString (attribute p)), (membersToString rest).
Qed.

Lemma propsToString_cons p rest :
  status (propsToString (p :: rest))
  = status (valuesToString (attribute p)) ≫= λ _, status (propsToString rest).
Proof.
  cbn [propsToString]. unfold status.
  by destruct (valuesToString (attribute p)), (propsToString rest).
Qed.

Lemma propsToString_app ps1 ps2 :
  status (propsToString (ps1 ++ ps2))
  = status (propsToString ps1) ≫= λ _, status (propsToString ps2).
Proof.
  induction ps1 as [|p ps1 IH].
  - unfold status. cbn. by destruct (propsToString ps2).
  - change ((p :: ps1) ++ ps2) with (p :: (ps1 ++ ps2)).
    rewrite !propsToString_cons, IH. unfold status.
    by destruct (valuesToString (attribute p)), (propsToString ps1),
                (propsToString ps2).
Qed.

(** The alternatives a property keeps are emitted exactly when no inline
    object type below them lost a member. *)
Lemma membersKept_status t :
  status (valuesToString (filter (λ a, isParseError a = false) (parseType t).1))
  = verdict (membersKept t).
Proof.
  induction t as [kw|e IH|lit|types IH|text|members IH|types|text]
    using TypeNode_nested_ind.
  - done.
  - rewrite parseType_array. cbn [fst membersKept].
    by rewrite filter_setIsArray, valuesToString_setIsArray.
  - done.
  - induction IH as [|t rest Ht _ IHrest]; [done|].
    rewrite parseType_union_cons, filter_app, valuesToString_app, Ht, IHrest.
    cbn [membersKept forallb]. apply verdict_bind.
  - cbn [parseType membersKept]. unfold createTypeRefAttr.
    by destruct (includes text "<").
  - rewrite parseType_members, filter_cons_True by done.
    rewrite filter_nil, valuesToString_cons, valueToString_literal.
    cbn [membersKept].
    transitivity (status (membersToString
      (map (λ m, (parsePropertyNode parseTypeNode m).1) members))).
    { unfold status. by destruct (membersToString _). }
    induction IH as [|m rest Hm _ IHrest]; [done|].
    cbn [map forallb].
    destruct m as [name q [type|]|]; cbn [parsePropertyNode]; [| |done].
    + destruct (String.eqb name EmptyString); [done|].
      cbn [negb andb parseTypeNode onMemberType] in *.
      pose proof (hasValidAttribute_spec type) as Hvalid.
      destruct (parseType type) as [attrs w]. cbn [fst] in *.
      destruct (filter _ attrs) as [|a l] eqn:Hfilter.
      * by rewrite (proj1 Hvalid eq_refl).
      * destruct (hasValidAttribute type); [|by destruct Hvalid as [_ Hv]; discriminate Hv].
        cbn [fst andb]. rewrite membersToString_cons. cbn [attribute].
        rewrite Hm, IHrest. apply verdict_bind.
    + by destruct (String.eqb name EmptyString).
  - done.
  - done.
Qed.

Lemma hasValidAttribute_kept t :
  hasValidAttribute t = false → membersKept t = true.
Proof.
  intros Hvalid%hasValidAttribute_spec.
  pose proof (membersKept_status t) as Hstatus. rewrite Hvalid in Hstatus.
  by destruct (membersKept t).
Qed.

Lemma parsePropertyNode_status member :
  status (propsToString
            (match (parsePropertyNode parseTypeNode member).1 with
             | Some p => [p]
             | None => []
             end))
  = verdict (memberEmittable member).
Proof.
  destruct member as [name q [type|]|]; cbn [parsePropertyNode memberEmittable];
    [| |done].
  - destruct (String.eqb name EmptyString); [done|].
    cbn [orb parseTypeNode].
    pose proof (hasValidAttribute_spec type) as Hvalid.
    pose proof (membersKept_status type) as Hstatus.
    destruct (parseType type) as [attrs w]. cbn [fst] in *.
    destruct (filter _ attrs) as [|a l] eqn:Hfilter.
    + cbn [fst]. by rewrite hasValidAttribute_kept by by apply Hvalid.
    + cbn [fst]. rewrite propsToString_cons. cbn [attribute].
      rewrite Hstatus. by destruct (membersKept type).
  - by destruct (String.eqb name EmptyString).
Qed.

Lemma parseMembers_status members :
  status (propsToString (parseMembers members).1)
  = verdict (forallb memberEmittable members).
Proof.
  induction members as [|member rest IH]; [done|].
  cbn [parseMembers forallb].
  pose proof (parsePropertyNode_status member) as Hmember.
  destruct (parsePropertyNode parseTypeNode member) as [[p|] w];
    destruct (parseMembers rest) as [ps w']; cbn [fst] in *.
  - change (p :: ps) with ([p] ++ ps).
    rewrite propsToString_app, Hmember, IH. apply verdict_bind.
  - rewrite IH. by destruct (memberEmittable member); [|discriminate Hmember].
Qed.

Lemma intersectionMembers_status types :
  status (propsToString (intersectionMembers types).1)
  = verdict (forallb (λ t, match t with
                           | TypeLiteralNode members =>
                               forallb memberEmittable members
                           | _ => true
                           end) types).
Proof.
  induction types as [|t rest IH]; [done|].
  destruct t as [| | | | |members| |]; cbn [intersectionMembers forallb andb];
    try exact IH.
  pose proof (parseMembers_status members) as Hmembers.
  destruct (parseMembers members) as [ps w].
  destruct (intersectionMembers rest) as [ps' w']. cbn [fst] in *.
  rewrite propsToString_app, Hmembers, IH. apply verdict_bind.
Qed.

Lemma mergeDeclaration_status acc name ps e d bp :
  Forall tidy acc → status (propsToString ps) = verdict bp →
  Forall tidy (mergeDeclaration acc name ps e d)
  ∧ forallb emits (mergeDeclaration acc name ps e d) = forallb emits acc && bp.
Proof.
  intros Hacc Hps. induction Hacc as [|item rest [b Hitem] Hrest [IHtidy IHemits]];
    cbn [mergeDeclaration forallb].
  - split.
    + constructor; [by exists bp|constructor].
    + unfold emits. cbn [props]. rewrite (returned_verdict _ _ Hps).
      by destruct bp.
  - destruct (String.eqb (objectName item) name).
    + assert (status (propsToString (props item ++ ps)) = verdict (b && bp))
        as Hboth.
      { by rewrite propsToString_app, Hitem, Hps, verdict_bind. }
      split.
      * constructor; [by exists (b && bp)|done].
      * cbn [forallb]. unfold emits at 1 3. cbn [props].
        rewrite (returned_verdict _ _ Hboth), (returned_verdict _ _ Hitem).
        by destruct b, bp, (forallb emits rest).
    + split.
      * constructor; [by exists b|done].
      * cbn [forallb]. rewrite IHemits. by rewrite andb_assoc.
Qed.

Lemma parseStatement_status statement acc :
  let acc' :=
    (match statement with
     | InterfaceDeclarationNode name exported members =>
         parseInterfaceNode acc name exported members
     | TypeAliasDeclarationNode name exported type =>
         parsedTypeLiteralNode acc name exported type
     | OtherStatement => (acc, [])
     end).1 in
  Forall tidy acc →
  Forall tidy acc'
  ∧ forallb emits acc' = forallb emits acc && statementEmittable statement.
Proof.
  intros acc' Hacc. subst acc'.
  destruct statement as [name e members|name e type|].
  - unfold parseInterfaceNode.
    pose proof (parseMembers_status members) as Hmembers.
    destruct (parseMembers members) as [ps w]. cbn [fst] in *.
    by apply mergeDeclaration_status.
  - unfold parsedTypeLiteralNode.
    assert (∀ d, Forall tidy (mergeDeclaration acc (formatObjectName name) [] e d)
                 ∧ forallb emits
                     (mergeDeclaration acc (formatObjectName name) [] e d)
                   = forallb emits acc && true) as Hnone.
    { intros d. by apply mergeDeclaration_status. }
    destruct type as [kw|elementType|lit|types|text|members|types|text];
      cbn [fst statementEmittable]; try apply Hnone.
    + apply mergeDeclaration_status; done.
    + unfold parseTypeAliasNode. cbn [parseTypeNode].
      pose proof (membersKept_status (UnionTypeNode types)) as Hstatus.
      cbn [membersKept] in Hstatus.
      destruct (parseType (UnionTypeNode types)) as [attrs w]. cbn [fst] in *.
      destruct (filter _ attrs) as [|a l]; cbn [fst].
      * by apply mergeDeclaration_status.
      * apply mergeDeclaration_status; [done|].
        rewrite propsToString_cons. cbn [attribute]. rewrite Hstatus.
        by destruct (forallb membersKept types).
    + pose proof (parseMembers_status members) as Hmembers.
      destruct (parseMembers members) as [ps w]. cbn [fst] in *.
      by apply mergeDeclaration_status.
    + pose proof (intersectionMembers_status types) as Htypes.
      destruct (intersectionMembers types) as [ps w]. cbn [fst] in *.
      by apply mergeDeclaration_status.
  - cbn [fst statementEmittable]. by rewrite andb_true_r.
Qed.

Lemma parseNode_status statements acc :
  Forall tidy acc →
  Forall tidy (parseNode statements acc).1
  ∧ forallb emits (parseNode statements acc).1
    = forallb emits acc && forallb statementEmittable statements.
Proof.
  revert acc. induction statements as [|statement rest IH]; intros acc Hacc.
  { cbn [parseNode fst forallb]. by rewrite andb_true_r. }
  cbn [parseNode forallb].
  pose proof (parseStatement_status statement acc) as Hstep. cbn zeta in Hstep.
  destruct (match statement with
            | InterfaceDeclarationNode name exported members => _
            | _ => _
            end) as [acc' w].
  cbn [fst] in Hstep. destruct (Hstep Hacc) as [Htidy Hemits].
  destruct (IH acc' Htidy) as [IHtidy IHemits].
  destruct (parseNode rest acc') as [final w']. cbn [fst] in *.
  split; [done|]. by rewrite IHemits, Hemits, andb_assoc.
Qed.

Lemma generateExportCode_status parsedInterfaces :
  Forall tidy parsedInterfaces →
  status (generateExportCode parsedInterfaces)
  = verdict (forallb emits parsedInterfaces).
Proof.
  induction 1 as [|intf rest [b Hintf] _ IH]; [done|].
  cbn [generateExportCode forallb]. unfold emits at 1.
  rewrite (returned_verdict _ _ Hintf), <- verdict_bind, <- Hintf, <- IH.
  unfold status.
  by destruct (propsToString (props intf)), (generateExportCode rest).
Qed.

(** X19: [build] either returns the module or throws a [TypeError], and it
    throws exactly when the parser dropped a member of an inline object
    type: somewhere below a kept member of a declaration (or below the union
    of a type alias) an inline object type has a member that is not a
    property signature, has an empty name, has no type, or has a type with
    only unsupported alternatives.  A dropped member of the declaration
    itself does no harm. *)
Theorem build_throws_iff_inline_member_dropped statements :
  ((build statements).1 = Thrown TypeError
   ∧ forallb statementEmittable statements = false)
  ∨ ((∃ bindings, (build statements).1 = Returned bindings)
     ∧ forallb statementEmittable statements = true).
Proof.
  unfold build.
  destruct (parseNode_status statements []) as [Htidy Hemits]; [constructor|].
  pose proof (generateExportCode_status _ Htidy) as Hstatus.
  rewrite Hemits in Hstatus. cbn [forallb andb] in Hstatus.
  destruct (parseNode statements []) as [parsed w]. cbn [fst] in *.
  destruct (forallb statementEmittable statements);
    destruct (generateExportCode parsed) as [bindings|[]|]; try done.
  - right. split; [by exists bindings|done].
  - by left.
Qed.

(** [interface A { x: { y: Promise<string> } }] makes [build] throw, while
    [interface A { y: Promise<string> }] is emitted without the member. *)
Example build_inline_generic_member :
  (build [InterfaceDeclarationNode "A" false
            [PropertySignature "x" false
               (Some (TypeLiteralNode
                        [PropertySignature "y" false
                           (Some (TypeReferenceNode "Promise<string>"))]))]]).1
  = Thrown TypeError
  ∧ (build [InterfaceDeclarationNode "A" false
              [PropertySignature "y" false
                 (Some (TypeReferenceNode "Promise<string>"))]]).1
    = Returned {[ "_A__A" := Schema [] (Some InterfaceDeclaration) ]}.
Proof. split; by vm_compute. Qed.
